(** * blog-template: the build script [build.js], embedded and verified

    The script compiles a markdown post with front matter into one
    self-contained HTML file: it renders the template (conditional
    blocks, then placeholders), inlines local images as base64 data
    URIs and writes the result under [dist/].

    Conventions of the embedding.
    - A JavaScript string is a sequence of UTF-16 code units.  The model
      covers the code units below 256, one [ascii] per code unit, so a
      string is a [list ascii]; [js "..."] writes a literal.
    - A [Buffer] is a [list byte].
    - A regular expression literal is a value of [re], interpreted by a
      backtracking matcher that follows the ECMAScript matching rules
      for the constructs the script uses.
    - Node's [fs] and [path] modules, [gray-matter], [marked] and
      [puppeteer] are the members of the class [Host]; the program is
      written against that interface, in a monad that threads the
      disk and the console and propagates exceptions and
      [process.exit]. *)

From Stdlib Require Import List Ascii String NArith ZArith Lia Bool.
From Stdlib Require Import Init.Byte Strings.Byte.
From Stdlib Require Import DecimalString DecimalNat DecimalFacts.
From stdpp Require Import gmap strings.
Import ListNotations.

(** ** Strings *)

Definition str := list ascii.

Definition js (s : string) : str := list_ascii_of_string s.

Definition code (c : ascii) : N := N_of_ascii c.

Definition between (lo hi : N) (c : ascii) : bool :=
  (lo <=? code c)%N && (code c <=? hi)%N.

(** [\w] is [[A-Za-z0-9_]]. *)
Definition is_word (c : ascii) : bool :=
  between 65 90 c || between 97 122 c || between 48 57 c || (code c =? 95)%N.

(** [\s] is WhiteSpace and LineTerminator; below 256 these are TAB, LF,
    VT, FF, CR, SPACE and NBSP.  [String.prototype.trim] strips the same
    set. *)
Definition is_space (c : ascii) : bool :=
  between 9 13 c || (code c =? 32)%N || (code c =? 160)%N.

(** [[\s\S]]. *)
Definition any_char (c : ascii) : bool := is_space c || negb (is_space c).

Definition is_char (x : ascii) (c : ascii) : bool :=
  if ascii_dec x c then true else false.

(** The negated classes of the image pattern: anything but [>], and
    anything but a double or single quote. *)
Definition not_gt (c : ascii) : bool := negb (is_char ">" c).
Definition is_quote (c : ascii) : bool := (code c =? 34)%N || (code c =? 39)%N.
Definition not_quote (c : ascii) : bool := negb (is_quote c).

(** Case mapping of one code unit below 256: A-Z, and the Latin-1
    capitals U+00C0..U+00DE except the multiplication sign U+00D7. *)
Definition lower_char (c : ascii) : ascii :=
  if between 65 90 c || (between 192 222 c && negb (code c =? 215)%N)
  then ascii_of_N (code c + 32) else c.

Definition toLowerCase (s : str) : str := map lower_char s.

(** Canonicalisation of the [i] flag.  Every literal character of the
    patterns below is ASCII, and a code unit above 127 never
    canonicalises to an ASCII one, so comparing ASCII lower cases is
    exact. *)
Definition ascii_lower (c : ascii) : ascii :=
  if between 65 90 c then ascii_of_N (code c + 32) else c.

Definition same_char (icase : bool) (x c : ascii) : bool :=
  if icase then is_char (ascii_lower x) (ascii_lower c) else is_char x c.

Fixpoint startsWith (p s : str) : bool :=
  match p, s with
  | [], _ => true
  | x :: p', c :: s' => is_char x c && startsWith p' s'
  | _ :: _, [] => false
  end.

Definition endsWith (p s : str) : bool := startsWith (rev p) (rev s).

Fixpoint dropWhile (p : ascii -> bool) (s : str) : str :=
  match s with
  | c :: t => if p c then dropWhile p t else s
  | [] => []
  end.

Fixpoint takeWhile (p : ascii -> bool) (s : str) : str :=
  match s with
  | c :: t => if p c then c :: takeWhile p t else []
  | [] => []
  end.

Definition trim (s : str) : str :=
  rev (dropWhile is_space (rev (dropWhile is_space s))).

(** ** Regular expressions *)

(** The constructs of the four patterns of the script.  A quantifier is
    always applied to a character class there. *)
Inductive re : Type :=
  | Eps
  | Chr (c : ascii)                 (* a literal character *)
  | Cls (p : ascii -> bool)         (* a character class *)
  | Star (p : ascii -> bool)        (* [p*], greedy *)
  | StarLazy (p : ascii -> bool)    (* [p*?] *)
  | Cat (r1 r2 : re)
  | Grp (r : re).                   (* a capturing group *)

Definition Plus (p : ascii -> bool) : re := Cat (Cls p) (Star p).

Fixpoint Lit (s : str) : re :=
  match s with
  | [] => Eps
  | c :: t => Cat (Chr c) (Lit t)
  end.

Declare Scope re_scope.
Delimit Scope re_scope with re.
Bind Scope re_scope with re.
Infix "·" := Cat (at level 41, right associativity) : re_scope.

Section Matcher.
Context {R : Type}.

(** Greedy: one more character first, the continuation on failure. *)
Fixpoint star_greedy (p : ascii -> bool) (s : str) (k : str -> option R)
  : option R :=
  match s with
  | c :: t =>
      if p c then
        match star_greedy p t k with
        | Some r => Some r
        | None => k s
        end
      else k s
  | [] => k []
  end.

(** Lazy: the continuation first, one more character on failure. *)
Fixpoint star_lazy (p : ascii -> bool) (s : str) (k : str -> option R)
  : option R :=
  match k s with
  | Some r => Some r
  | None =>
      match s with
      | c :: t => if p c then star_lazy p t k else None
      | [] => None
      end
  end.

(** [m icase r s caps k]: match [r] at the front of [s], then run the
    continuation on what is left.  The groups of the script's patterns
    are never nested, so a group closes in the order it opened and its
    capture is appended. *)
Fixpoint m (icase : bool) (r : re) (s : str) (caps : list str)
         (k : str -> list str -> option R) : option R :=
  match r with
  | Eps => k s caps
  | Chr x =>
      match s with
      | c :: t => if same_char icase x c then k t caps else None
      | [] => None
      end
  | Cls p =>
      match s with
      | c :: t => if p c then k t caps else None
      | [] => None
      end
  | Star p => star_greedy p s (fun rest => k rest caps)
  | StarLazy p => star_lazy p s (fun rest => k rest caps)
  | Cat r1 r2 => m icase r1 s caps (fun rest caps' => m icase r2 rest caps' k)
  | Grp r1 =>
      m icase r1 s caps
        (fun rest caps' => k rest (caps' ++ [take (length s - length rest) s]))
  end.
End Matcher.

Record RegExp := { pattern : re; ignoreCase : bool }.

(** One attempt at the current position: the length of the match and
    the captures. *)
Definition exec (rx : RegExp) (s : str) : option (nat * list str) :=
  m (ignoreCase rx) (pattern rx) s []
    (fun rest caps => Some (length s - length rest, caps)).

(** What a global scan leaves: the characters between matches, and the
    matches with their captures. *)
Inductive piece : Type :=
  | Gap (c : ascii)
  | Hit (whole : str) (groups : list str).

(** The loop of [RegExp.prototype[Symbol.replace]] for a [g] pattern:
    after a match the scan resumes at its end, after an empty match one
    code unit further. *)
Fixpoint scan_from (fuel : nat) (rx : RegExp) (s : str) : list piece :=
  match fuel with
  | O => []
  | S fuel' =>
      let step :=
        match s with
        | [] => []
        | c :: t => Gap c :: scan_from fuel' rx t
        end in
      match exec rx s with
      | Some (O, caps) => Hit [] caps :: step
      | Some (n, caps) => Hit (take n s) caps :: scan_from fuel' rx (drop n s)
      | None => step
      end
  end.

Definition scan (rx : RegExp) (s : str) : list piece :=
  scan_from (S (length s)) rx s.

(** [s.replace(rx, f)] for a global pattern and a function [f], which
    receives the match and the captures.  All matches are found first;
    the function is then called on each in order. *)
Definition replace (rx : RegExp) (f : str -> list str -> str) (s : str) : str :=
  concat (map (fun p => match p with
                        | Gap c => [c]
                        | Hit whole groups => f whole groups
                        end) (scan rx s)).

Definition group (i : nat) (groups : list str) : str := nth i groups [].

(** ** Values and objects *)

(** The values a property read of the script can produce: [undefined],
    a string, or an object or function inherited from
    [Object.prototype], kept with its string conversion. *)
Inductive value : Type :=
  | Undefined
  | Str (s : str)
  | Native (shown : str).

Definition truthy (v : value) : bool :=
  match v with
  | Undefined => false
  | Str [] => false
  | Str (_ :: _) => true
  | Native _ => true
  end.

Definition native_function (name : string) : value :=
  Native (js "function " ++ js name ++ js "() { [native code] }").

(** A property read follows the prototype chain, and the prototype of
    an object literal is [Object.prototype].  These are its properties
    in Node, each a function but [__proto__], which reads as the
    prototype itself. *)
Definition Object_prototype : list (str * value) :=
  [ (js "constructor", native_function "Object");
    (js "__defineGetter__", native_function "__defineGetter__");
    (js "__defineSetter__", native_function "__defineSetter__");
    (js "hasOwnProperty", native_function "hasOwnProperty");
    (js "__lookupGetter__", native_function "__lookupGetter__");
    (js "__lookupSetter__", native_function "__lookupSetter__");
    (js "isPrototypeOf", native_function "isPrototypeOf");
    (js "propertyIsEnumerable", native_function "propertyIsEnumerable");
    (js "toString", native_function "toString");
    (js "valueOf", native_function "valueOf");
    (js "__proto__", Native (js "[object Object]"));
    (js "toLocaleString", native_function "toLocaleString") ].

Fixpoint assoc (k : str) (l : list (str * value)) : value :=
  match l with
  | [] => Undefined
  | (k', v) :: l' => if decide (k = k') then v else assoc k l'
  end.

(** An object literal whose own properties are strings. *)
Abbreviation object := (gmap str str).

(** [o[k]]: the own property, else the inherited one, else [undefined]. *)
Definition get (o : object) (k : str) : value :=
  match o !! k with
  | Some s => Str s
  | None => assoc k Object_prototype
  end.

(** ** The template renderer *)

(** [/\{\{#if (\w+)\}\}([\s\S]*?)\{\{\/if\}\}/g] *)
Definition IF_BLOCK : RegExp :=
  {| pattern := (Lit (js "{{#if ") · Grp (Plus is_word) · Lit (js "}}")
                 · Grp (StarLazy any_char) · Lit (js "{{/if}}"))%re;
     ignoreCase := false |}.

(** [/\{\{(\w+)\}\}/g] *)
Definition PLACEHOLDER : RegExp :=
  {| pattern := (Lit (js "{{") · Grp (Plus is_word) · Lit (js "}}"))%re;
     ignoreCase := false |}.

Definition processConditionals (html : str) (data : object) : str :=
  replace IF_BLOCK
    (fun _ groups =>
       let key := group 0 groups in
       let block := group 1 groups in
       if truthy (get data key) then block else [])
    html.

(** The function's result goes through ToString, as [replace] does with
    whatever its callback returns. *)
Definition ToString (v : value) : str :=
  match v with
  | Undefined => js "undefined"
  | Str s => s
  | Native shown => shown
  end.

Definition replacePlaceholders (html : str) (data : object) : str :=
  replace PLACEHOLDER
    (fun _ groups =>
       let key := group 0 groups in
       match get data key with
       | Undefined => []
       | v => ToString v
       end)
    html.

(** ** Reading time *)

(** [RegExp.prototype[Symbol.split]] on a non-empty string: [cur] holds
    the code units since the end of the last separator, [s] is what is
    left to scan.  A match that is empty and starts where the last
    separator ended splits nothing. *)
Fixpoint split_from (fuel : nat) (rx : RegExp) (cur s : str) : list str :=
  match fuel with
  | O => [cur ++ s]
  | S fuel' =>
      match s with
      | [] => [cur]
      | c :: t =>
          match exec rx s with
          | None => split_from fuel' rx (cur ++ [c]) t
          | Some (n, caps) =>
              match n, cur with
              | O, [] => split_from fuel' rx [c] t
              | _, _ => cur :: caps ++ split_from fuel' rx [] (drop n s)
              end
          end
      end
  end.

(** [s.split(rx)]; the empty string gives one empty token unless the
    pattern matches it. *)
Definition split (rx : RegExp) (s : str) : list str :=
  match s with
  | [] => match exec rx [] with Some _ => [] | None => [[]] end
  | _ :: _ => split_from (S (2 * length s)) rx [] s
  end.

(** [/\s+/] *)
Definition WHITESPACE_RUN : RegExp :=
  {| pattern := Plus is_space; ignoreCase := false |}.

(** [Math.ceil(a / b)] for counts of code units: the quotient is far
    below 2^53, where the floating-point division cannot round a
    fraction to an integer, so the integer ceiling is exact. *)
Definition Math_ceil_div (a b : nat) : nat :=
  a / b + (if a mod b =? 0 then 0 else 1).

(** A number, as a template literal prints it. *)
Definition number (n : nat) : str :=
  js (NilZero.string_of_uint (Nat.to_uint n)).

Definition readingTime (text : str) : str :=
  let words := length (split WHITESPACE_RUN (trim text)) in
  let minutes := Math_ceil_div words 230 in
  number minutes ++ js " min read".

(** ** The asset inliner *)

(** The alphabet of RFC 4648, section 4. *)
Definition BASE64 : str :=
  js "ABCDEFGHIJKLMNOPQRSTUVWXYZabcdefghijklmnopqrstuvwxyz0123456789+/".

Definition sextet (n : N) : ascii := nth (N.to_nat n) BASE64 "="%char.

(** [buffer.toString("base64")]: three bytes become four characters,
    and a last group of one or two bytes is padded with [=]. *)
Fixpoint base64 (data : list byte) : str :=
  match data with
  | [] => []
  | [a] =>
      let x := Byte.to_N a in
      [sextet (x / 4); sextet (x mod 4 * 16); "="; "="]%char%N
  | [a; b] =>
      let x := Byte.to_N a in
      let y := Byte.to_N b in
      [sextet (x / 4); sextet (x mod 4 * 16 + y / 16);
       sextet (y mod 16 * 4); "="%char]%N
  | a :: b :: c :: rest =>
      let x := Byte.to_N a in
      let y := Byte.to_N b in
      let z := Byte.to_N c in
      [sextet (x / 4); sextet (x mod 4 * 16 + y / 16);
       sextet (y mod 16 * 4 + z / 64); sextet (z mod 64)]%N ++ base64 rest
  end.

Definition MIME_TYPES : object :=
  list_to_map
    [ (js ".png", js "image/png");
      (js ".jpg", js "image/jpeg");
      (js ".jpeg", js "image/jpeg");
      (js ".gif", js "image/gif");
      (js ".svg", js "image/svg+xml");
      (js ".webp", js "image/webp");
      (js ".avif", js "image/avif") ].

Definition is_slash (c : ascii) : bool := is_char "/" c.
Definition is_dot (c : ascii) : bool := is_char "." c.
Definition non (p : ascii -> bool) (c : ascii) : bool := negb (p c).

(** [path.extname] on POSIX, read from the end of the path: the last
    segment without trailing slashes, from its last dot on; empty when
    the segment has no dot, starts with its only dot, or is [..]. *)
Definition extname (p : str) : str :=
  let segment := takeWhile (non is_slash) (dropWhile is_slash (rev p)) in
  let ext := takeWhile (non is_dot) segment in
  match dropWhile (non is_dot) segment with
  | [] => []
  | [_] => []
  | _ :: stem =>
      match ext, stem with
      | [], [_] => []
      | _, _ => "."%char :: rev ext
      end
  end.

(** ** The host: Node and the libraries *)

(** What the script throws comes from a call into the host. *)
Inductive exn : Type := Failure (api : string) (arg : str).

Class Host := {
  (* node:fs; [None] is a thrown exception *)
  fs : Type;
  existsSync : fs -> str -> bool;
  readFileSync : fs -> str -> option (list byte);
  readdirSync : fs -> str -> option (list str);
  mkdirSync_recursive : fs -> str -> option fs;
  writeFileSync : fs -> str -> list byte -> option fs;
  statSync_size : fs -> str -> option N;
  (* the "utf-8" encoding argument of readFileSync and writeFileSync *)
  utf8_decode : list byte -> str;
  utf8_encode : str -> list byte;
  (* node:path *)
  path_join : str -> str -> str;
  path_resolve : str -> str -> str;
  path_dirname : str -> str;
  path_basename : str -> str -> str;      (* the suffix to drop, or empty *)
  path_isAbsolute : str -> bool;
  (* gray-matter and marked; the values of the front matter are
     strings *)
  matter : str -> option (object * str);
  marked_parse : str -> option str;
  (* puppeteer: load the page, add the style tag, print to the path *)
  page_pdf : fs -> str -> str -> option fs;
  (* __dirname *)
  ROOT : str
}.

(** Console output, one constructor per message of the script.  A size
    is kept in bytes; the script prints it in KB. *)
Inductive line : Type :=
  | warn_unsupported_image_type (ext filePath : str)
  | log_inlined (count : nat)
  | log_compiled (name slug : str) (bytes : N)
  | log_pdf (name : str) (bytes : N)
  | log_no_markdown_files
  | log_building (posts : nat)
  | log_generating_pdfs
  | log_done
  | error_uncaught (e : exn).

Section Program.
Context `{Host}.

Record World := { disk : fs; console : list line }.

(** How a computation ends: it returns, it throws, or the process
    exits. *)
Inductive outcome (A : Type) : Type :=
  | Returned (a : A) (w : World)
  | Thrown (e : exn) (w : World)
  | Exited (status : Z) (w : World).
Arguments Returned {A}.
Arguments Thrown {A}.
Arguments Exited {A}.

Definition M (A : Type) : Type := World -> outcome A.

#[export] Instance M_ret : MRet M := fun A a w => Returned a w.

#[export] Instance M_bind : MBind M := fun A B k c w =>
  match c w with
  | Returned a w' => k a w'
  | Thrown e w' => Thrown e w'
  | Exited n w' => Exited n w'
  end.

(** The world after one more line on the console. *)
Definition printed (l : line) (w : World) : World :=
  {| disk := disk w; console := console w ++ [l] |}.

Definition print (l : line) : M unit := fun w => Returned tt (printed l w).

Definition process_exit {A} (status : Z) : M A := fun w => Exited status w.

(** A host call that reads the disk. *)
Definition reading {A} (api : string) (arg : str) (f : fs -> option A) : M A :=
  fun w =>
    match f (disk w) with
    | Some a => Returned a w
    | None => Thrown (Failure api arg) w
    end.

(** A host call that changes the disk. *)
Definition writing (api : string) (arg : str) (f : fs -> option fs) : M unit :=
  fun w =>
    match f (disk w) with
    | Some d => Returned tt {| disk := d; console := console w |}
    | None => Thrown (Failure api arg) w
    end.

(** A library call. *)
Definition calling {A} (api : string) (arg : str) (r : option A) : M A :=
  fun w =>
    match r with
    | Some a => Returned a w
    | None => Thrown (Failure api arg) w
    end.
End Program.

Arguments Returned {_ A}.
Arguments Thrown {_ A}.
Arguments Exited {_ A}.

(** [/(<img\s[^>]*src=[QUOTE])([^QUOTE]+)([QUOTE][^>]*>)/gi], where
    QUOTE stands for the double and the single quote. *)
Definition IMG_SRC : RegExp :=
  {| pattern :=
       (Grp (Lit (js "<img") · Cls is_space · Star not_gt · Lit (js "src=")
             · Cls is_quote)
        · Grp (Plus not_quote)
        · Grp (Cls is_quote · Star not_gt · Lit (js ">")))%re;
     ignoreCase := true |}.

(** [!v] for a value that is a string or [null]. *)
Definition present (o : option str) : bool :=
  match o with
  | Some (_ :: _) => true
  | _ => false
  end.

(** [a || b] *)
Definition or_else (o : option str) (b : str) : str :=
  match o with
  | Some (c :: t) => c :: t
  | _ => b
  end.

(** [o.k || b] *)
Definition field (o : object) (k : string) (b : str) : str :=
  let v := get o (js k) in
  if truthy v then ToString v else b.

(** [htmlPath.replace(/\.html$/, ".pdf")] *)
Definition pdf_path (htmlPath : str) : str :=
  if endsWith (js ".html") htmlPath
  then take (length htmlPath - 5) htmlPath ++ js ".pdf"
  else htmlPath.

Section Build.
Context `{Host}.

Definition CONTENT_DIR : str := path_join ROOT (js "content").
Definition DIST_DIR : str := path_join ROOT (js "dist").
Definition TEMPLATE_PATH : str := path_join ROOT (js "template.html").
Definition STYLES_PATH : str := path_join ROOT (js "styles.css").

Definition fs_readFileSync (p : str) : M (list byte) :=
  reading "fs.readFileSync" p (fun d => readFileSync d p).

Definition fs_readFileSync_utf8 (p : str) : M str :=
  data ← fs_readFileSync p; mret (utf8_decode data).

Definition fs_statSync_size (p : str) : M N :=
  reading "fs.statSync" p (fun d => statSync_size d p).

Definition generatePdf (htmlPath : str) : M str :=
  let pdfPath := pdf_path htmlPath in
  writing "page.pdf" htmlPath (fun d => page_pdf d htmlPath pdfPath);;
  size ← fs_statSync_size pdfPath;
  print (log_pdf (path_basename pdfPath []) size);;
  mret pdfPath.

Definition toDataUri (filePath : str) : M (option str) :=
  let ext := toLowerCase (extname filePath) in
  let mime := get MIME_TYPES ext in
  if negb (truthy mime) then
    print (warn_unsupported_image_type ext filePath);;
    mret None
  else
    data ← fs_readFileSync filePath;
    mret (Some (js "data:" ++ ToString mime ++ js ";base64," ++ base64 data)).

Definition resolveImagePath (src contentDir : str) : M (option str) :=
  if startsWith (js "data:") src || startsWith (js "http://") src
     || startsWith (js "https://") src
  then mret None
  else
    let resolved := path_resolve contentDir src in
    found ← reading "fs.existsSync" resolved
              (fun d => Some (existsSync d resolved));
    if found : bool then mret (Some resolved) else mret None.

(** The callback of [inlineImages]; [count] is the counter it
    closes over. *)
Definition inline_one (contentDir : str) (whole : str) (groups : list str)
           (count : nat) : M (str * nat) :=
  let before := group 0 groups in
  let src := group 1 groups in
  let after := group 2 groups in
  filePath ← resolveImagePath src contentDir;
  if negb (present filePath) then mret (whole, count)
  else
    dataUri ← toDataUri (or_else filePath []);
    if negb (present dataUri) then mret (whole, count)
    else mret (before ++ or_else dataUri [] ++ after, S count).

(** The second phase of [replace]: the callback runs on each match in
    order, and the pieces are joined. *)
Fixpoint substitute {S : Type} (f : str -> list str -> S -> M (str * S))
         (pieces : list piece) (st : S) : M (str * S) :=
  match pieces with
  | [] => mret ([], st)
  | Gap c :: rest =>
      '(out, st') ← substitute f rest st;
      mret (c :: out, st')
  | Hit whole groups :: rest =>
      '(r, st1) ← f whole groups st;
      '(out, st2) ← substitute f rest st1;
      mret (r ++ out, st2)
  end.

Definition inlineImages (html contentDir : str) : M str :=
  '(result, count) ← substitute (inline_one contentDir) (scan IMG_SRC html) 0;
  (if count is O then mret tt else print (log_inlined count));;
  mret result.

(** The render context of [compile]. *)
Definition context (frontmatter : object) (coverImage markdown styles
                                           htmlContent : str) : object :=
  list_to_map
    [ (js "title", field frontmatter "title" (js "Untitled"));
      (js "subtitle", field frontmatter "subtitle" []);
      (js "author", field frontmatter "author" []);
      (js "date", field frontmatter "date" []);
      (js "category", field frontmatter "category" []);
      (js "cover_image", coverImage);
      (js "og_image", field frontmatter "og_image" []);
      (js "read_time", field frontmatter "read_time" (readingTime markdown));
      (js "footer", field frontmatter "footer" []);
      (js "styles", styles);
      (js "content", htmlContent) ].

(** The cover image of [compile]: inlined when it is a local file of
    a supported type. *)
Definition cover (frontmatter : object) (contentDir : str) : M str :=
  let coverImage := field frontmatter "cover_image" [] in
  if coverImage is [] then mret coverImage
  else
    resolved ← resolveImagePath coverImage contentDir;
    if present resolved then
      dataUri ← toDataUri (or_else resolved []);
      mret (or_else dataUri coverImage)
    else mret coverImage.

(** [compile] from the parsed document on. *)
Definition compile_parsed (inputFile : str) (frontmatter : object)
           (markdown : str) : M str :=
  let contentDir := path_dirname inputFile in
  htmlContent ← calling "marked.parse" markdown (marked_parse markdown);
  styles ← fs_readFileSync_utf8 STYLES_PATH;
  template ← fs_readFileSync_utf8 TEMPLATE_PATH;
  coverImage ← cover frontmatter contentDir;
  let data := context frontmatter coverImage markdown styles htmlContent in
  let output := processConditionals template data in
  let output := replacePlaceholders output data in
  output ← inlineImages output contentDir;
  let slug :=
    field frontmatter "slug" (path_basename inputFile (extname inputFile)) in
  let outPath := path_join DIST_DIR (slug ++ js ".html") in
  writing "fs.mkdirSync" DIST_DIR (fun d => mkdirSync_recursive d DIST_DIR);;
  writing "fs.writeFileSync" outPath
    (fun d => writeFileSync d outPath (utf8_encode output));;
  size ← fs_statSync_size outPath;
  print (log_compiled (path_basename inputFile []) slug size);;
  mret outPath.

Definition compile (inputFile : str) : M str :=
  raw ← fs_readFileSync_utf8 inputFile;
  '(frontmatter, markdown) ← calling "matter" raw (matter raw);
  compile_parsed inputFile frontmatter markdown.

(** [files.map(f)] and [for (const x of xs) await f(x)]. *)
Fixpoint for_each {A B : Type} (f : A -> M B) (xs : list A) : M (list B) :=
  match xs with
  | [] => mret []
  | x :: rest => y ← f x; ys ← for_each f rest; mret (y :: ys)
  end.

Definition includes (x : str) (xs : list str) : bool :=
  existsb (fun y => bool_decide (y = x)) xs.

Definition markdown_files : M (list str) :=
  names ← reading "fs.readdirSync" CONTENT_DIR
            (fun d => readdirSync d CONTENT_DIR);
  mret (map (fun f => path_join CONTENT_DIR f)
            (filter (fun f => endsWith (js ".md") f = true) names)).

(** The block of [main] that collects the target files. *)
Definition collect (args : list str) : M (list str) :=
  let buildAll := includes (js "--all") args in
  if buildAll then markdown_files
  else
    let targets :=
      filter (fun a => startsWith (js "--") a = false) args in
    if targets is [] then markdown_files
    else mret (map (fun t => if path_isAbsolute t then t
                             else path_join CONTENT_DIR t) targets).

(** [main]; [args] is [process.argv.slice(2)]. *)
Definition main (args : list str) : M unit :=
  let buildPdf := includes (js "--pdf") args in
  files ← collect args;
  (if files is [] then
     print log_no_markdown_files;; process_exit 0
   else mret tt);;
  print (log_building (length files));;
  htmlPaths ← for_each compile files;
  (if buildPdf then
     print log_generating_pdfs;;
     for_each generatePdf htmlPaths;; mret tt
   else mret tt);;
  print log_done.

(** The process: [main().catch(...)] logs what was thrown and exits
    with status 1. *)
Definition node_build (args : list str) (w : World) : Z * World :=
  match main args w with
  | Returned _ w' => (0%Z, w')
  | Thrown e w' => (1%Z, printed (error_uncaught e) w')
  | Exited status w' => (status, w')
  end.
End Build.


(** ** Markers, regions and words: the vocabulary of the statements *)

(** A name: one or more word characters. *)
Definition is_name (w : str) : bool :=
  match w with
  | [] => false
  | _ :: _ => forallb is_word w
  end.

(** A marker [open name }}] at the front of [s]: its name and what
    follows it. *)
Definition marker_at (open s : str) : option (str * str) :=
  if startsWith open s then
    let s1 := drop (length open) s in
    let name := takeWhile is_word s1 in
    let s2 := dropWhile is_word s1 in
    if is_name name && startsWith (js "}}") s2
    then Some (name, drop 2 s2)
    else None
  else None.

Fixpoint has_marker (open s : str) : bool :=
  match marker_at open s with
  | Some _ => true
  | None =>
      match s with
      | [] => false
      | _ :: t => has_marker open t
      end
  end.

(** The position of the first occurrence of [pat] in [s]. *)
Fixpoint index_of (pat s : str) : option nat :=
  if startsWith pat s then Some 0
  else
    match s with
    | [] => None
    | _ :: t => option_map S (index_of pat t)
    end.

Definition IF_OPEN : str := js "{{#if ".
Definition IF_CLOSE : str := js "{{/if}}".
Definition MUSTACHE : str := js "{{".
Definition if_open (name : str) : str := IF_OPEN ++ name ++ js "}}".
Definition placeholder (name : str) : str := MUSTACHE ++ name ++ js "}}".

(** A stretch of a template: some text without a marker, then the
    conditional block [{{#if guard}}inside{{/if}}], whose closing
    marker is the first one after the opening. *)
Record block := { text_before : str; guard : str; inside : str }.

Definition block_source (b : block) : str :=
  text_before b ++ if_open (guard b) ++ inside b ++ IF_CLOSE.

Definition block_ok (b : block) : bool :=
  negb (has_marker IF_OPEN (text_before b))
  && is_name (guard b)
  && bool_decide (index_of IF_CLOSE (inside b ++ IF_CLOSE) = Some (length (inside b))).

(** Some text without a marker, then the placeholder of a name. *)
Record token := { text_ahead : str; name_of : str }.

Definition token_source (t : token) : str :=
  text_ahead t ++ placeholder (name_of t).

Definition token_ok (t : token) : bool :=
  negb (has_marker MUSTACHE (text_ahead t)) && is_name (name_of t).

(** The words of a text: its maximal runs of characters that are not
    white space.  [cur] is the word being read. *)
Fixpoint runs (cur s : str) : list str :=
  match s with
  | [] => match cur with [] => [] | _ :: _ => [cur] end
  | c :: t =>
      if is_space c then
        match cur with
        | [] => runs [] t
        | _ :: _ => cur :: runs [] t
        end
      else runs (cur ++ [c]) t
  end.

Definition words (s : str) : list str := runs [] s.

Fixpoint ends_in_space (s : str) : bool :=
  match s with
  | [] => false
  | [c] => is_space c
  | _ :: (_ :: _) as t => ends_in_space t
  end.

(** Decoding by RFC 4648, section 4: what a reader of the data URI
    does with the payload. *)
Fixpoint index_in (c : ascii) (l : str) : option N :=
  match l with
  | [] => None
  | x :: l' => if is_char x c then Some 0%N else option_map N.succ (index_in c l')
  end.

Definition unsextet (c : ascii) : option N := index_in c BASE64.

Definition bytes_of (ns : list N) : option (list byte) :=
  foldr (fun n acc =>
           match Byte.of_N n, acc with
           | Some b, Some bs => Some (b :: bs)
           | _, _ => None
           end) (Some []) ns.

Fixpoint base64_decode (s : str) : option (list byte) :=
  match s with
  | [] => Some []
  | c1 :: c2 :: c3 :: c4 :: rest =>
      match unsextet c1, unsextet c2 with
      | Some s1, Some s2 =>
          let b1 := (s1 * 4 + s2 / 16)%N in
          if is_char "=" c4 then
            match rest with
            | _ :: _ => None
            | [] =>
                if is_char "=" c3 then bytes_of [b1]
                else
                  match unsextet c3 with
                  | Some s3 => bytes_of [b1; (s2 mod 16 * 16 + s3 / 4)%N]
                  | None => None
                  end
            end
          else
            match unsextet c3, unsextet c4, base64_decode rest with
            | Some s3, Some s4, Some tail =>
                option_map (fun group => group ++ tail)
                  (bytes_of [b1; (s2 mod 16 * 16 + s3 / 4)%N;
                             (s3 mod 4 * 64 + s4)%N])
            | _, _, _ => None
            end
      | _, _ => None
      end
  | _ => None
  end.

(** The whitelist as the specification words it: extension and mime
    type. *)
Definition WHITELIST : list (string * string) :=
  [ ("png", "image/png"); ("jpg", "image/jpeg"); ("jpeg", "image/jpeg");
    ("gif", "image/gif"); ("svg", "image/svg+xml"); ("webp", "image/webp");
    ("avif", "image/avif") ]%string.

(** A reference the inliner has to leave alone: a data URI, a network
    URL, or a path that names nothing on the disk. *)
Definition left_alone `{Host} (d : fs) (contentDir src : str) : bool :=
  startsWith (js "data:") src || startsWith (js "http://") src
  || startsWith (js "https://") src
  || negb (existsSync d (path_resolve contentDir src)).

(** The text a piece of a scan stands for. *)
Definition piece_text (p : piece) : str :=
  match p with
  | Gap c => [c]
  | Hit whole _ => whole
  end.

(** The value a conditional block is replaced by. *)
Definition resolved (data : object) (name body : str) : str :=
  if truthy (get data name) then body else [].

(** The value a placeholder is replaced by. *)
Definition substituted (data : object) (name : str) : str :=
  match get data name with
  | Undefined => []
  | v => ToString v
  end.

Definition token_rendered (data : object) (t : token) : str :=
  text_ahead t ++ substituted data (name_of t).

(** The value a stretch of template is rendered to. *)
Definition block_rendered (data : object) (b : block) : str :=
  text_before b ++ resolved data (guard b) (inside b).

(** No opening brace in [s]. *)
Definition brace_free (s : str) : bool := forallb (non (is_char "{")) s.

(** The opening of a marker: two braces, then no further brace. *)
Definition opening (open : str) : bool :=
  startsWith MUSTACHE open && brace_free (drop 2 open).

(** The check that decoding inverts [sextet] at [n]. *)
Definition sextet_ok (n : N) : bool :=
  match unsextet (sextet n) with
  | Some k => (k =? n)%N && negb (is_char "=" (sextet n))
  | None => false
  end.

(** ** Further vocabulary *)

(** A name that every object literal inherits a property for. *)
Definition inherited (name : str) : bool :=
  match assoc name Object_prototype with
  | Undefined => false
  | _ => true
  end.

(** What the context alone makes of a block and of a placeholder. *)
Definition block_by_key (data : object) (b : block) : str :=
  text_before b ++
  match data !! guard b with
  | Some (_ :: _) => inside b
  | _ => []
  end.

Definition token_by_key (data : object) (t : token) : str :=
  text_ahead t ++ default [] (data !! name_of t).

(** The front matter fields that default to the empty string. *)
Definition OPTIONAL_FIELDS : list string :=
  [ "subtitle"; "author"; "date"; "category"; "og_image"; "footer" ]%string.

(** A character that can stand inside a quoted attribute of a tag:
    no quote, no [>], no white space. *)
Definition attribute_safe (c : ascii) : bool :=
  not_quote c && not_gt c && negb (is_space c).

(** A token of a split text: not empty, and free of white space. *)
Definition is_token (tok : str) : bool :=
  match tok with
  | [] => false
  | _ :: _ => forallb (non is_space) tok
  end.

(** A pattern without capturing groups. *)
Fixpoint groupless (r : re) : bool :=
  match r with
  | Grp _ => false
  | Cat r1 r2 => groupless r1 && groupless r2
  | _ => true
  end.

(** The strings a pattern stands for. *)
Fixpoint denotes (icase : bool) (r : re) (s : str) : Prop :=
  match r with
  | Eps => s = []
  | Chr x => exists c, s = [c] /\ same_char icase x c = true
  | Cls p => exists c, s = [c] /\ p c = true
  | Star p => forallb p s = true
  | StarLazy p => forallb p s = true
  | Cat r1 r2 => exists s1 s2, s = s1 ++ s2 /\ denotes icase r1 s1 /\ denotes icase r2 s2
  | Grp r1 => denotes icase r1 s
  end.

(** What [inlineImages] may put in the place of a piece of the page: a
    character as it is; an image tag as it is, or with a data URI
    between what stood before and after its [src] value. *)
Definition inlined_piece (p : piece) (out : str) : Prop :=
  match p with
  | Gap c => out = [c]
  | Hit whole groups =>
      out = whole
      \/ exists uri, out = group 0 groups ++ uri ++ group 2 groups
                     /\ startsWith (js "data:") uri = true
                     /\ forallb attribute_safe uri = true
  end.

Section Worlds.
Context `{Host}.

(** The world a computation ends in. *)
Definition final {A : Type} (o : outcome A) : World :=
  match o with
  | Returned _ w => w
  | Thrown _ w => w
  | Exited _ w => w
  end.

(** A computation that leaves the disk as it found it, however it ends. *)
Definition keeps_disk {A : Type} (c : M A) : Prop :=
  forall w, disk (final (c w)) = disk w.

(** A computation that does not end the process. *)
Definition stays {A : Type} (c : M A) : Prop :=
  forall w status w', c w <> Exited status w'.
End Worlds.

(** ** A host to run the script on *)

(** A disk in memory: files by path, and the directories that exist.
    Paths are joined with a slash and not normalised; front matter is
    not parsed and markdown is passed through. *)
Module Demo.
Record disk := { files : list (str * list byte); dirs : list str }.

Fixpoint lookup (p : str) (fs : list (str * list byte)) : option (list byte) :=
  match fs with
  | [] => None
  | (q, data) :: rest => if decide (p = q) then Some data else lookup p rest
  end.

Definition join (a b : str) : str := a ++ js "/" ++ b.

Definition child (dir : str) (entry : str * list byte) : option str :=
  let p := entry.1 in
  if startsWith (join dir []) p then
    let name := drop (length (join dir [])) p in
    if forallb (non is_slash) name then Some name else None
  else None.

Definition basename (p ext : str) : str :=
  let name := rev (takeWhile (non is_slash) (rev p)) in
  match ext with
  | _ :: _ =>
      if endsWith ext name then take (length name - length ext) name else name
  | [] => name
  end.

Definition write (p : str) (data : list byte) (d : disk) : disk :=
  {| files := (p, data) :: files d; dirs := dirs d |}.

Definition host : Host :=
  {| fs := disk;
     existsSync d p :=
       bool_decide (is_Some (lookup p (files d))) || bool_decide (p ∈ dirs d);
     readFileSync d p := lookup p (files d);
     readdirSync d dir :=
       if bool_decide (dir ∈ dirs d)
       then Some (omap (child dir) (files d)) else None;
     mkdirSync_recursive d dir :=
       Some {| files := files d; dirs := dir :: dirs d |};
     writeFileSync d p data := Some (write p data d);
     statSync_size d p := option_map (fun data => N.of_nat (length data))
                                     (lookup p (files d));
     utf8_decode := map ascii_of_byte;
     utf8_encode := map byte_of_ascii;
     path_join := join;
     path_resolve := join;
     path_dirname p := rev (drop 1 (dropWhile (non is_slash) (rev p)));
     path_basename := basename;
     path_isAbsolute := startsWith (js "/");
     matter raw := Some (∅, raw);
     marked_parse markdown := Some markdown;
     page_pdf d htmlPath pdfPath := Some (write pdfPath [] d);
     ROOT := js "/blog" |}.

Definition bytes (s : string) : list byte := map byte_of_ascii (js s).

(** A project with a template, a stylesheet, one picture and one
    text file, and no post yet. *)
Definition empty_project : @World host :=
  @Build_World host
       {| files :=
            [ (js "/blog/template.html",
               bytes "<h1>{{title}}</h1>{{#if subtitle}}<h2>{{subtitle}}</h2>{{/if}}{{content}}");
              (js "/blog/styles.css", bytes "h1 { color: red }");
              (js "/blog/content/dot.png", bytes "PNG");
              (js "/blog/content/notes.txt", bytes "notes") ];
          dirs := [js "/blog"; js "/blog/content"] |}
       [].

Fixpoint word_list (n : nat) : str :=
  match n with
  | O => []
  | S n' => js "word " ++ word_list n'
  end.
End Demo.

(** * Proofs *)

(** ** Strings: prefixes and spans *)

Lemma is_char_true x c : is_char x c = true <-> x = c.
Proof. unfold is_char. destruct (ascii_dec x c); split; congruence. Qed.

Lemma startsWith_spec p s : startsWith p s = true <-> exists t, s = p ++ t.
Proof.
  revert s. induction p as [|x p IH]; intros s; simpl.
  - split; eauto.
  - destruct s as [|c s]; simpl.
    + split; [discriminate | intros [t Ht]; discriminate].
    + rewrite andb_true_iff, is_char_true, IH. split.
      * intros [-> [t ->]]. eauto.
      * intros [t Ht]. injection Ht as -> ->. eauto.
Qed.

Lemma startsWith_app p t : startsWith p (p ++ t) = true.
Proof. apply startsWith_spec. eauto. Qed.

Lemma startsWith_app_long p u x :
  length p <= length u -> startsWith p (u ++ x) = startsWith p u.
Proof.
  revert u. induction p as [|c p IH]; intros u Hlen; simpl; [reflexivity|].
  destruct u as [|d u]; simpl in *; [lia|].
  rewrite IH by lia. reflexivity.
Qed.

Lemma span_app p s : takeWhile p s ++ dropWhile p s = s.
Proof. induction s as [|c s IH]; simpl; [|destruct (p c); simpl; rewrite ?IH]; reflexivity. Qed.

Lemma span_length p s : length (takeWhile p s) + length (dropWhile p s) = length s.
Proof. rewrite <- (span_app p s) at 3. rewrite length_app. reflexivity. Qed.

Lemma takeWhile_forallb p s : forallb p (takeWhile p s) = true.
Proof.
  induction s as [|c s IH]; simpl; [reflexivity|].
  destruct (p c) eqn:E; simpl; [rewrite E, IH|]; reflexivity.
Qed.

Lemma takeWhile_stop p u c t :
  forallb p u = true -> p c = false -> takeWhile p (u ++ c :: t) = u.
Proof.
  induction u as [|d u IH]; simpl; intros Hu Hc.
  - rewrite Hc. reflexivity.
  - apply andb_true_iff in Hu as [-> Hu]. rewrite IH; auto.
Qed.

Lemma dropWhile_stop p u c t :
  forallb p u = true -> p c = false -> dropWhile p (u ++ c :: t) = c :: t.
Proof.
  induction u as [|d u IH]; simpl; intros Hu Hc.
  - rewrite Hc. reflexivity.
  - apply andb_true_iff in Hu as [-> Hu]. rewrite IH; auto.
Qed.

Lemma dropWhile_head p s c t : dropWhile p s = c :: t -> p c = false.
Proof.
  induction s as [|d s IH]; simpl; [discriminate|].
  destruct (p d) eqn:E; [exact IH|]. intros [= <- _]. exact E.
Qed.

(** ** The matcher *)

Section MatcherFacts.
Context {R : Type}.
Implicit Types (k : str -> option R).

(** A greedy star hands the longest run to its continuation first. *)
Lemma star_greedy_longest p s k r :
  k (dropWhile p s) = Some r -> star_greedy p s k = Some r.
Proof.
  induction s as [|c s IH]; simpl; [auto|].
  destruct (p c); [|auto]. intros Hk. rewrite (IH Hk). reflexivity.
Qed.

(** When the continuation fails in front of every character of the
    class, nothing shorter than the longest run can match. *)
Lemma star_greedy_run p s k :
  (forall c t, p c = true -> k (c :: t) = None) ->
  star_greedy p s k = k (dropWhile p s).
Proof.
  intros Hk. induction s as [|c s IH]; simpl; [reflexivity|].
  destruct (p c) eqn:E; [|reflexivity].
  rewrite IH. destruct (k (dropWhile p s)); [reflexivity|]. auto.
Qed.

(** A literal matches as [startsWith] tests. *)
Lemma m_Lit (l s : str) caps (k : str -> list str -> option R) :
  m false (Lit l) s caps k =
  if startsWith l s then k (drop (length l) s) caps else None.
Proof.
  revert s. induction l as [|x l IH]; intros s; simpl; [reflexivity|].
  destruct s as [|c s]; [reflexivity|]. simpl.
  destruct (is_char x c); simpl; [apply IH | reflexivity].
Qed.
End MatcherFacts.

(** ** Markers and the patterns that find them *)

Lemma take_span p s : take (length s - length (dropWhile p s)) s = takeWhile p s.
Proof.
  rewrite <- (span_app p s) at 1 3.
  rewrite length_app, Nat.add_sub.
  rewrite take_app_length. reflexivity.
Qed.

Lemma drop_span p s : drop (length (takeWhile p s)) s = dropWhile p s.
Proof. rewrite <- (span_app p s) at 2. rewrite drop_app_length. reflexivity. Qed.

Lemma is_name_word w : is_name w = true -> forallb is_word w = true.
Proof. destruct w; [discriminate | auto]. Qed.

Lemma is_name_app w c t :
  is_name w = true -> is_word c = false -> takeWhile is_word (w ++ c :: t) = w
  /\ dropWhile is_word (w ++ c :: t) = c :: t.
Proof.
  intros Hw Hc. apply is_name_word in Hw.
  split; [apply takeWhile_stop | apply dropWhile_stop]; auto.
Qed.

Lemma marker_at_app open name rest :
  is_name name = true ->
  marker_at open (open ++ name ++ js "}}" ++ rest) = Some (name, rest).
Proof.
  intros Hn. unfold marker_at.
  rewrite startsWith_app, drop_app_length.
  change (js "}}" ++ rest) with ("}"%char :: "}"%char :: rest).
  destruct (is_name_app name "}"%char ("}"%char :: rest) Hn eq_refl) as [-> ->].
  rewrite Hn. reflexivity.
Qed.

Lemma marker_at_inv open s name rest :
  marker_at open s = Some (name, rest) ->
  is_name name = true /\ s = open ++ name ++ js "}}" ++ rest.
Proof.
  unfold marker_at. destruct (startsWith open s) eqn:Ho; [|discriminate].
  apply startsWith_spec in Ho as [s1 ->]. rewrite drop_app_length.
  destruct (is_name (takeWhile is_word s1)) eqn:Hn; cbn [andb]; [|discriminate].
  destruct (startsWith (js "}}") (dropWhile is_word s1)) eqn:Hc; [|discriminate].
  apply startsWith_spec in Hc as [r Hr]. intros [= <- <-].
  split; [exact Hn|]. rewrite Hr. simpl drop.
  rewrite <- (span_app is_word s1) at 1. rewrite Hr. reflexivity.
Qed.

(** The group [(\w+)] in front of a continuation that cannot start at a
    word character. *)
Lemma m_Grp_word {R} icase s caps (k : str -> list str -> option R) :
  (forall c t caps', is_word c = true -> k (c :: t) caps' = None) ->
  m icase (Grp (Plus is_word)) s caps k =
  if is_name (takeWhile is_word s)
  then k (dropWhile is_word s) (caps ++ [takeWhile is_word s])
  else None.
Proof.
  intros Hk. destruct s as [|c t]; [reflexivity|].
  cbn [m Plus]. simpl takeWhile. simpl dropWhile.
  destruct (is_word c) eqn:Hc; [|reflexivity].
  rewrite star_greedy_run by (intros; apply Hk; assumption).
  assert (is_name (c :: takeWhile is_word t) = true) as ->.
  { simpl. rewrite Hc, takeWhile_forallb. reflexivity. }
  f_equal. f_equal. f_equal.
  pose proof (take_span is_word (c :: t)) as Ht. simpl dropWhile in Ht.
  simpl takeWhile in Ht. rewrite Hc in Ht. exact Ht.
Qed.

Lemma m_Cat {R} icase r1 r2 s caps (k : str -> list str -> option R) :
  m icase (Cat r1 r2) s caps k =
  m icase r1 s caps (fun rest caps' => m icase r2 rest caps' k).
Proof. reflexivity. Qed.

Lemma word_not_brace c : is_word c = true -> is_char "}" c = false.
Proof.
  intros Hc. destruct (is_char "}" c) eqn:E; [|reflexivity].
  apply is_char_true in E. subst c. discriminate.
Qed.

Lemma exec_PLACEHOLDER s :
  exec PLACEHOLDER s =
  match marker_at MUSTACHE s with
  | Some (name, _) => Some (length (placeholder name), [name])
  | None => None
  end.
Proof.
  unfold exec, PLACEHOLDER, marker_at. cbn [pattern ignoreCase].
  rewrite m_Cat, m_Lit. destruct (startsWith MUSTACHE s) eqn:Ho;
    [|change (js "{{") with MUSTACHE; rewrite Ho; reflexivity].
  change (js "{{") with MUSTACHE. rewrite Ho.
  rewrite m_Cat, m_Grp_word.
  2:{ intros c t caps' Hc. rewrite m_Lit. simpl. rewrite (word_not_brace c Hc). reflexivity. }
  apply startsWith_spec in Ho as [s1 ->]. rewrite drop_app_length.
  destruct (is_name (takeWhile is_word s1)) eqn:Hn; cbn [andb]; [|reflexivity].
  rewrite m_Lit. destruct (startsWith (js "}}") (dropWhile is_word s1)) eqn:Hc; [|reflexivity].
  cbn [m]. apply startsWith_spec in Hc as [r Hr]. f_equal. f_equal.
  rewrite <- (span_app is_word s1) at 1. rewrite Hr.
  unfold placeholder. rewrite !length_app, drop_app_length. simpl. lia.
Qed.

Lemma star_lazy_index {R} pat s (k : str -> option R) (g : str -> R) :
  (forall x, k x = if startsWith pat x then Some (g x) else None) ->
  star_lazy any_char s k =
  match index_of pat s with
  | Some i => Some (g (drop i s))
  | None => None
  end.
Proof.
  intros Hk. induction s as [|c s IH]; simpl; rewrite Hk.
  - destruct (startsWith pat []); reflexivity.
  - destruct (startsWith pat (c :: s)); [reflexivity|].
    assert (any_char c = true) as ->
        by (unfold any_char; destruct (is_space c); reflexivity).
    rewrite IH. destruct (index_of pat s); reflexivity.
Qed.

Lemma index_of_bound pat s i : index_of pat s = Some i -> i + length pat <= length s.
Proof.
  revert i. induction s as [|c s IH]; intros i; simpl.
  - destruct (startsWith pat []) eqn:E; [|discriminate].
    intros [= <-]. apply startsWith_spec in E as [t Ht].
    apply (f_equal length) in Ht. rewrite length_app in Ht. simpl in *. lia.
  - destruct (startsWith pat (c :: s)) eqn:E.
    + intros [= <-]. apply startsWith_spec in E as [t Ht].
      apply (f_equal length) in Ht. rewrite length_app in Ht. simpl in *. lia.
    + destruct (index_of pat s) as [j|]; [|discriminate].
      intros [= <-]. specialize (IH j eq_refl). simpl. lia.
Qed.

Lemma exec_IF_BLOCK s :
  exec IF_BLOCK s =
  match marker_at IF_OPEN s with
  | Some (name, rest) =>
      match index_of IF_CLOSE rest with
      | Some i =>
          Some (length (if_open name) + i + length IF_CLOSE, [name; take i rest])
      | None => None
      end
  | None => None
  end.
Proof.
  unfold exec, IF_BLOCK. cbn [pattern ignoreCase].
  rewrite m_Cat, m_Lit. change (js "{{#if ") with IF_OPEN.
  destruct (marker_at IF_OPEN s) as [[name rest]|] eqn:Hm.
  - apply marker_at_inv in Hm as [Hn ->].
    rewrite startsWith_app, drop_app_length.
    rewrite m_Cat, m_Grp_word.
    2:{ intros c t caps' Hc. rewrite m_Cat, m_Lit. simpl. rewrite (word_not_brace c Hc). reflexivity. }
    destruct (is_name_app name "}"%char ("}"%char :: rest) Hn eq_refl) as [E1 E2].
    change (js "}}" ++ rest) with ("}"%char :: "}"%char :: rest).
    rewrite E1, E2, Hn. rewrite m_Cat, m_Lit. simpl startsWith. simpl drop.
    rewrite m_Cat. cbn [m app]. change (drop 0 rest) with rest.
    rewrite (star_lazy_index IF_CLOSE _ _
               (fun x => (length (IF_OPEN ++ name ++ "}"%char :: "}"%char :: rest)
                          - length (drop (length IF_CLOSE) x),
                          [name; take (length rest - length x) rest]))).
    2:{ intros x. rewrite m_Lit. reflexivity. }
    destruct (index_of IF_CLOSE rest) as [i|] eqn:Hi; [|reflexivity].
    apply index_of_bound in Hi. f_equal. f_equal.
    + unfold if_open. rewrite !length_drop, !length_app.
      simpl length in *. lia.
    + rewrite length_drop. replace (length rest - (length rest - i)) with i by lia.
      reflexivity.
  - unfold marker_at in Hm.
    destruct (startsWith IF_OPEN s) eqn:Ho; [|reflexivity].
    rewrite m_Cat, m_Grp_word.
    2:{ intros c t caps' Hc. rewrite m_Cat, m_Lit. simpl. rewrite (word_not_brace c Hc). reflexivity. }
    destruct (is_name (takeWhile is_word (drop (length IF_OPEN) s))); cbn [andb] in *; [|reflexivity].
    rewrite m_Cat, m_Lit.
    destruct (startsWith (js "}}") (dropWhile is_word (drop (length IF_OPEN) s)));
      [discriminate | reflexivity].
Qed.

(** ** The global scan *)

Section MatcherResult.
Context {R : Type}.

Lemma star_greedy_result p s (k : str -> option R) res :
  star_greedy p s k = Some res -> exists rest, k rest = Some res.
Proof.
  induction s as [|c s IH]; simpl; [eauto|].
  destruct (p c); [|eauto].
  destruct (star_greedy p s k) eqn:E; [|eauto].
  intros [= <-]. auto.
Qed.

Lemma star_lazy_result p s (k : str -> option R) res :
  star_lazy p s k = Some res -> exists rest, k rest = Some res.
Proof.
  induction s as [|c s IH]; simpl.
  - destruct (k []) eqn:E; [|discriminate]. intros [= <-]. eauto.
  - destruct (k (c :: s)) eqn:E; [intros [= <-]; eauto|].
    destruct (p c); [auto | discriminate].
Qed.

(** Whatever the matcher returns, its last continuation returned. *)
Lemma m_result icase r s caps (k : str -> list str -> option R) res :
  m icase r s caps k = Some res -> exists rest caps', k rest caps' = Some res.
Proof.
  revert s caps k. induction r as [| x | p | p | p | r1 IH1 r2 IH2 | r1 IH1];
    intros s caps k; cbn [m].
  - eauto.
  - destruct s as [|c t]; [discriminate|]. destruct (same_char icase x c); [eauto | discriminate].
  - destruct s as [|c t]; [discriminate|]. destruct (p c); [eauto | discriminate].
  - intros [rest Hk]%star_greedy_result. eauto.
  - intros [rest Hk]%star_lazy_result. eauto.
  - intros (rest & caps' & Hk)%IH1. apply IH2 in Hk. exact Hk.
  - intros (rest & caps' & Hk)%IH1. eauto.
Qed.
End MatcherResult.

Lemma exec_le rx s n caps : exec rx s = Some (n, caps) -> n <= length s.
Proof.
  unfold exec. intros (rest & caps' & [= <- _])%m_result. lia.
Qed.

Lemma scan_from_enough rx f1 f2 s :
  length s < f1 -> length s < f2 -> scan_from f1 rx s = scan_from f2 rx s.
Proof.
  revert f2 s. induction f1 as [|f1 IH]; intros f2 s H1 H2; [lia|].
  destruct f2 as [|f2]; [lia|]. cbn [scan_from].
  assert (Hstep : match s with [] => [] | c :: t => Gap c :: scan_from f1 rx t end
                  = match s with [] => [] | c :: t => Gap c :: scan_from f2 rx t end).
  { destruct s as [|c t]; [reflexivity|]. simpl in *. f_equal. apply IH; lia. }
  destruct (exec rx s) as [[[|n] caps]|] eqn:E.
  - rewrite Hstep. reflexivity.
  - apply exec_le in E. f_equal. apply IH; rewrite length_drop; lia.
  - exact Hstep.
Qed.

Lemma scan_nil rx : exec rx [] = None -> scan rx [] = [].
Proof. unfold scan. simpl. intros ->. reflexivity. Qed.

Lemma scan_miss rx c t :
  exec rx (c :: t) = None -> scan rx (c :: t) = Gap c :: scan rx t.
Proof.
  intros E. unfold scan. cbn [scan_from length]. rewrite E. reflexivity.
Qed.

Lemma scan_hit rx s n caps :
  exec rx s = Some (S n, caps) ->
  scan rx s = Hit (take (S n) s) caps :: scan rx (drop (S n) s).
Proof.
  intros E. unfold scan at 1. cbn [scan_from]. rewrite E. f_equal.
  apply exec_le in E. apply scan_from_enough; rewrite ?length_drop; lia.
Qed.

(** No match starts inside [t]: the scan copies it. *)
Lemma scan_quiet rx t x :
  (forall i, i < length t -> exec rx (drop i (t ++ x)) = None) ->
  scan rx (t ++ x) = map Gap t ++ scan rx x.
Proof.
  induction t as [|c t IH]; intros Hq; [reflexivity|].
  simpl. rewrite scan_miss by (apply (Hq 0); simpl; lia).
  f_equal. apply IH. intros i Hi. apply (Hq (S i)). simpl. lia.
Qed.

Lemma replace_app_quiet rx f t x :
  (forall i, i < length t -> exec rx (drop i (t ++ x)) = None) ->
  replace rx f (t ++ x) = t ++ replace rx f x.
Proof.
  intros Hq. unfold replace. rewrite scan_quiet by exact Hq.
  rewrite map_app, concat_app, map_map. f_equal.
  clear. induction t as [|c t IH]; simpl; [|rewrite IH]; reflexivity.
Qed.

Lemma replace_hit rx f s n caps :
  exec rx s = Some (S n, caps) ->
  replace rx f s = f (take (S n) s) caps ++ replace rx f (drop (S n) s).
Proof. intros E. unfold replace. rewrite (scan_hit _ _ _ _ E). reflexivity. Qed.

Lemma replace_nil rx f : exec rx [] = None -> replace rx f [] = [].
Proof. intros E. unfold replace. rewrite scan_nil by exact E. reflexivity. Qed.

(** ** Text between markers *)

(** A string without [{] that runs into text containing one ends before
    it. *)
Lemma brace_free_inside body u y r :
  brace_free body = true -> u ++ "{"%char :: y = body ++ r ->
  exists r', u = body ++ r'.
Proof.
  revert u. induction body as [|c body IH]; intros u Hb E; [eauto|].
  simpl in Hb. apply andb_true_iff in Hb as [Hc Hb].
  destruct u as [|d u]; simpl in E.
  - injection E as <- _. discriminate.
  - injection E as -> E. destruct (IH u Hb E) as [r' ->]. eauto.
Qed.

Lemma word_brace_free w : forallb is_word w = true -> brace_free w = true.
Proof.
  unfold brace_free. induction w as [|c w IH]; simpl; [reflexivity|].
  intros [Hc Hw]%andb_true_iff. rewrite (IH Hw), andb_true_r.
  unfold non. destruct (is_char "{" c) eqn:E; [|reflexivity].
  apply is_char_true in E. subst c. discriminate.
Qed.

(** A marker cannot begin in a text and end in what follows, when what
    follows begins a marker itself. *)
Lemma marker_at_straddle open u x :
  opening open = true -> u <> [] -> x = [] \/ startsWith MUSTACHE x = true ->
  marker_at open u = None -> marker_at open (u ++ x) = None.
Proof.
  intros [Ho Hb]%andb_true_iff Hu [-> | Hx] Hnone; [rewrite app_nil_r; exact Hnone|].
  destruct (marker_at open (u ++ x)) as [[w r]|] eqn:Hm; [exfalso | reflexivity].
  apply marker_at_inv in Hm as [Hw E].
  apply startsWith_spec in Ho as [o' ->]. apply startsWith_spec in Hx as [x' ->].
  cbn in Hb. change (drop 0 o') with o' in Hb. simpl in E.
  assert (Hbody : brace_free (o' ++ w ++ js "}}") = true).
  { pose proof (word_brace_free w (is_name_word w Hw)) as Hw'.
    unfold brace_free in *. rewrite !forallb_app, Hb, Hw'. reflexivity. }
  destruct u as [|a [|b u]]; [congruence | |]; simpl in E.
  - injection E as -> E.
    destruct o' as [|c o'].
    + destruct w as [|c w]; [discriminate|]. simpl in E. injection E as <- _.
      discriminate.
    + simpl in E. injection E as <- _. discriminate.
  - injection E as -> -> E.
    replace (o' ++ w ++ "}"%char :: "}"%char :: r)
      with ((o' ++ w ++ js "}}") ++ r) in E by (rewrite <- !app_assoc; reflexivity).
    destruct (brace_free_inside _ _ _ _ Hbody E) as [r' ->].
    assert (marker_at ("{"%char :: "{"%char :: o')
              (("{"%char :: "{"%char :: o') ++ w ++ js "}}" ++ r') = Some (w, r'))
      as Hsome by (apply marker_at_app; exact Hw).
    simpl in Hsome. simpl in Hnone. rewrite <- !app_assoc in Hnone.
    simpl in Hnone. congruence.
Qed.

Lemma has_marker_drop open t i :
  has_marker open t = false -> marker_at open (drop i t) = None.
Proof.
  revert i. induction t as [|c t IH]; intros i; simpl.
  - destruct (marker_at open []) eqn:E; [discriminate|]. intros _.
    destruct i; exact E.
  - destruct (marker_at open (c :: t)) eqn:E; [discriminate|]. intros Ht.
    destruct i; [exact E | apply IH; exact Ht].
Qed.

Lemma marker_free_text open t x i :
  opening open = true -> has_marker open t = false ->
  x = [] \/ startsWith MUSTACHE x = true -> i < length t ->
  marker_at open (drop i (t ++ x)) = None.
Proof.
  intros Ho Ht Hx Hi. rewrite drop_app_le by lia.
  apply marker_at_straddle; auto using has_marker_drop.
  intros E. apply (f_equal length) in E. rewrite length_drop in E. simpl in E. lia.
Qed.

(** ** Blocks and placeholders *)

Lemma index_of_app pat u x i :
  index_of pat u = Some i -> index_of pat (u ++ x) = Some i.
Proof.
  revert i. induction u as [|c u IH]; intros i; simpl.
  - destruct (startsWith pat []) eqn:E; [|discriminate]. intros [= <-].
    destruct pat; [|discriminate]. destruct x; reflexivity.
  - destruct (startsWith pat (c :: u)) eqn:E.
    + intros [= <-]. apply startsWith_spec in E as [r E].
      assert (startsWith pat (c :: u ++ x) = true) as ->; [|reflexivity].
      apply startsWith_spec. exists (r ++ x).
      rewrite app_assoc, <- E. reflexivity.
    + destruct (index_of pat u) as [j|] eqn:Hj; [|discriminate].
      intros [= <-]. pose proof (index_of_bound _ _ _ Hj) as Hb.
      change (c :: u ++ x) with ((c :: u) ++ x).
      rewrite startsWith_app_long by (simpl; lia).
      rewrite E, (IH j eq_refl). reflexivity.
Qed.

(** One region: the text before it is copied, the region is resolved
    by its guard, and the scan goes on behind the closing marker. *)
Lemma processConditionals_region data t name body rest :
  has_marker IF_OPEN t = false ->
  is_name name = true ->
  index_of IF_CLOSE (body ++ IF_CLOSE) = Some (length body) ->
  processConditionals (t ++ if_open name ++ body ++ IF_CLOSE ++ rest) data =
  t ++ resolved data name body ++ processConditionals rest data.
Proof.
  intros Ht Hn Hb. unfold processConditionals.
  rewrite replace_app_quiet.
  2:{ intros i Hi. rewrite exec_IF_BLOCK.
      rewrite marker_free_text; auto. }
  f_equal.
  assert (E : exec IF_BLOCK (if_open name ++ body ++ IF_CLOSE ++ rest) =
              Some (S (length (if_open name ++ body ++ IF_CLOSE) - 1), [name; body])).
  { rewrite exec_IF_BLOCK. unfold if_open. rewrite <- !app_assoc.
    rewrite marker_at_app by exact Hn.
    rewrite (app_assoc body), (index_of_app _ _ rest _ Hb).
    rewrite <- app_assoc, take_app_length. f_equal. f_equal.
    rewrite !length_app. simpl. lia. }
  rewrite (replace_hit _ _ _ _ _ E).
  replace (S (length (if_open name ++ body ++ IF_CLOSE) - 1))
    with (length (if_open name ++ body ++ IF_CLOSE))
    by (rewrite !length_app; simpl; lia).
  replace (if_open name ++ body ++ IF_CLOSE ++ rest)
    with ((if_open name ++ body ++ IF_CLOSE) ++ rest)
    by (rewrite <- !app_assoc; reflexivity).
  rewrite drop_app_length. reflexivity.
Qed.

(** Any number of blocks in a row. *)
Lemma processConditionals_blocks data blocks rest :
  forallb block_ok blocks = true ->
  processConditionals (concat (map block_source blocks) ++ rest) data =
  concat (map (block_rendered data) blocks) ++ processConditionals rest data.
Proof.
  induction blocks as [|b blocks IH]; intros Hok; [reflexivity|].
  simpl in Hok. apply andb_true_iff in Hok as [Hb Hok].
  unfold block_ok in Hb.
  apply andb_true_iff in Hb as [[Ht Hn]%andb_true_iff Hc].
  apply negb_true_iff in Ht. apply bool_decide_eq_true in Hc.
  cbn [map concat]. unfold block_source at 1, block_rendered at 1.
  rewrite <- !app_assoc.
  rewrite processConditionals_region by assumption.
  rewrite (IH Hok). reflexivity.
Qed.

Lemma processConditionals_text data t :
  has_marker IF_OPEN t = false -> processConditionals t data = t.
Proof.
  intros Ht. unfold processConditionals.
  rewrite <- (app_nil_r t) at 1. rewrite replace_app_quiet.
  - rewrite replace_nil by reflexivity. apply app_nil_r.
  - intros i Hi. rewrite exec_IF_BLOCK, marker_free_text; auto.
Qed.

(** One placeholder: the text before it is copied and the token gives
    way to the value of its name. *)
Lemma replacePlaceholders_token data t name rest :
  has_marker MUSTACHE t = false ->
  is_name name = true ->
  replacePlaceholders (t ++ placeholder name ++ rest) data =
  t ++ substituted data name ++ replacePlaceholders rest data.
Proof.
  intros Ht Hn. unfold replacePlaceholders.
  rewrite replace_app_quiet.
  2:{ intros i Hi. rewrite exec_PLACEHOLDER.
      rewrite marker_free_text; auto. }
  f_equal.
  assert (E : exec PLACEHOLDER (placeholder name ++ rest) =
              Some (S (length (placeholder name) - 1), [name])).
  { rewrite exec_PLACEHOLDER. unfold placeholder. rewrite <- !app_assoc.
    rewrite marker_at_app by exact Hn. reflexivity. }
  rewrite (replace_hit _ _ _ _ _ E).
  replace (S (length (placeholder name) - 1)) with (length (placeholder name))
    by (unfold placeholder; rewrite !length_app; simpl; lia).
  rewrite drop_app_length. reflexivity.
Qed.

Lemma replacePlaceholders_text data t :
  has_marker MUSTACHE t = false -> replacePlaceholders t data = t.
Proof.
  intros Ht. unfold replacePlaceholders.
  rewrite <- (app_nil_r t) at 1. rewrite replace_app_quiet.
  - rewrite replace_nil by reflexivity. apply app_nil_r.
  - intros i Hi. rewrite exec_PLACEHOLDER, marker_free_text; auto.
Qed.

(** Any number of placeholders in a row. *)
Lemma replacePlaceholders_tokens data tokens rest :
  forallb token_ok tokens = true ->
  replacePlaceholders (concat (map token_source tokens) ++ rest) data =
  concat (map (token_rendered data) tokens) ++ replacePlaceholders rest data.
Proof.
  induction tokens as [|t tokens IH]; intros Hok; [reflexivity|].
  simpl in Hok. apply andb_true_iff in Hok as [Ht Hok].
  unfold token_ok in Ht. apply andb_true_iff in Ht as [Ht Hn].
  apply negb_true_iff in Ht.
  cbn [map concat]. unfold token_source at 1, token_rendered at 1.
  rewrite <- !app_assoc.
  rewrite replacePlaceholders_token by assumption.
  rewrite (IH Hok). reflexivity.
Qed.

(** For a name that no object inherits, the context alone decides: a
    block is kept exactly for a non-empty value, and a placeholder gives
    way to the value, or to nothing when the key is absent. *)
Lemma resolved_own data name body :
  assoc name Object_prototype = Undefined ->
  resolved data name body =
  match data !! name with
  | Some (_ :: _) => body
  | _ => []
  end.
Proof.
  intros Hp. unfold resolved, get. destruct (data !! name) as [[|c v]|];
    [reflexivity | reflexivity | rewrite Hp; reflexivity].
Qed.

Lemma substituted_own data name :
  assoc name Object_prototype = Undefined ->
  substituted data name = default [] (data !! name).
Proof.
  intros Hp. unfold substituted, get. destruct (data !! name);
    [reflexivity | rewrite Hp; reflexivity].
Qed.

(** ** Splitting on white space *)

Lemma exec_WHITESPACE_RUN s :
  exec WHITESPACE_RUN s =
  match s with
  | [] => None
  | c :: t =>
      if is_space c then Some (S (length (takeWhile is_space t)), []) else None
  end.
Proof.
  destruct s as [|c t]; [reflexivity|].
  unfold exec, WHITESPACE_RUN, Plus. cbn [pattern ignoreCase m].
  destruct (is_space c); [|reflexivity].
  erewrite star_greedy_longest by reflexivity.
  pose proof (span_length is_space t). do 2 f_equal. simpl. lia.
Qed.

Lemma runs_skip s : runs [] (dropWhile is_space s) = runs [] s.
Proof.
  induction s as [|c s IH]; simpl; [reflexivity|].
  destruct (is_space c) eqn:E; [exact IH|]. simpl. rewrite E. reflexivity.
Qed.

Lemma runs_trailing cur s ws :
  forallb is_space ws = true -> runs cur (s ++ ws) = runs cur s.
Proof.
  intros Hws. revert cur. induction s as [|c s IH]; intros cur; simpl.
  - revert cur. induction ws as [|w ws IHw]; intros cur; [reflexivity|].
    simpl in Hws. apply andb_true_iff in Hws as [Hw Hws]. simpl. rewrite Hw.
    specialize (IHw Hws). destruct cur; rewrite IHw; reflexivity.
  - destruct (is_space c); [destruct cur|]; rewrite IH; reflexivity.
Qed.

Lemma runs_cur_nonempty cur s : cur <> [] -> runs cur s <> [].
Proof.
  revert cur. induction s as [|c s IH]; intros cur Hc; simpl.
  - destruct cur; congruence.
  - destruct (is_space c).
    + destruct cur; congruence.
    + apply IH. destruct cur; discriminate.
Qed.

Lemma dropWhile_nil p s : dropWhile p s = [] -> forallb p s = true.
Proof.
  induction s as [|c s IH]; simpl; [reflexivity|].
  destruct (p c); [exact IH | discriminate].
Qed.

Lemma ends_in_space_all s :
  s <> [] -> forallb is_space s = true -> ends_in_space s = true.
Proof.
  induction s as [|c [|d s] IH]; intros Hs Hall; [congruence | |].
  - simpl in *. rewrite andb_true_r in Hall. exact Hall.
  - simpl in Hall. apply andb_true_iff in Hall as [_ Hall].
    apply IH; [discriminate | exact Hall].
Qed.

Lemma ends_in_space_tail c t : ends_in_space (c :: t) = false -> ends_in_space t = false.
Proof. destruct t; [reflexivity | exact (fun E => E)]. Qed.

Lemma ends_in_space_dropWhile p s :
  ends_in_space s = false -> ends_in_space (dropWhile p s) = false.
Proof.
  induction s as [|c s IH]; intros E; [reflexivity|]. simpl.
  destruct (p c); [|exact E]. apply IH, (ends_in_space_tail c), E.
Qed.

Lemma ends_in_space_snoc s c : ends_in_space (s ++ [c]) = is_space c.
Proof.
  induction s as [|d [|e s] IH]; [reflexivity | reflexivity |].
  exact IH.
Qed.

(** On a text that begins and ends with a word, [split] returns the
    words. *)
Lemma split_from_runs fuel cur s :
  2 * length s < fuel ->
  ends_in_space s = false ->
  cur <> [] \/ (exists c t, s = c :: t /\ is_space c = false) ->
  split_from fuel WHITESPACE_RUN cur s = runs cur s.
Proof.
  revert cur s. induction fuel as [|fuel IH]; intros cur s Hf He Hc; [lia|].
  destruct s as [|c t].
  - destruct Hc as [Hc | (c & t & [=] & _)]. simpl. destruct cur; congruence.
  - cbn [split_from runs]. rewrite exec_WHITESPACE_RUN.
    destruct (is_space c) eqn:Ec.
    + destruct Hc as [Hc | (c' & t' & [= <- <-] & Hc')]; [|congruence].
      destruct cur as [|a cur]; [congruence|]. clear Hc. simpl app.
      change (drop (S (length (takeWhile is_space t))) (c :: t))
        with (drop (length (takeWhile is_space t)) t).
      rewrite drop_span. f_equal. rewrite <- (runs_skip t).
      pose proof (span_length is_space t) as Hlen.
      apply IH; [simpl in Hf; lia | |].
      * apply ends_in_space_dropWhile, (ends_in_space_tail c), He.
      * right. destruct (dropWhile is_space t) as [|d r] eqn:Ed.
        -- apply dropWhile_nil in Ed.
           assert (ends_in_space (c :: t) = true); [|congruence].
           apply ends_in_space_all; [discriminate|]. simpl. rewrite Ec, Ed. reflexivity.
        -- exists d, r. split; [reflexivity|]. exact (dropWhile_head _ _ _ _ Ed).
    + apply IH; [simpl in Hf; lia | exact (ends_in_space_tail c t He) |].
      left. destruct cur; discriminate.
Qed.

Lemma trim_decompose s :
  exists ws, forallb is_space ws = true /\ dropWhile is_space s = trim s ++ ws.
Proof.
  unfold trim. set (a := dropWhile is_space s).
  exists (rev (takeWhile is_space (rev a))). split.
  - rewrite forallb_forall. intros x Hx%in_rev.
    pose proof (takeWhile_forallb is_space (rev a)) as Hall.
    rewrite forallb_forall in Hall. auto.
  - rewrite <- rev_app_distr, span_app, rev_involutive. reflexivity.
Qed.

Lemma words_trim s : words (trim s) = words s.
Proof.
  unfold words. destruct (trim_decompose s) as (ws & Hws & E).
  rewrite <- (runs_skip s), E, runs_trailing by exact Hws. reflexivity.
Qed.

Lemma trim_ends s : ends_in_space (trim s) = false.
Proof.
  unfold trim. destruct (dropWhile is_space (rev (dropWhile is_space s))) as [|c r] eqn:E;
    [reflexivity|].
  simpl. rewrite ends_in_space_snoc. exact (dropWhile_head _ _ _ _ E).
Qed.

Lemma trim_starts s c t : trim s = c :: t -> is_space c = false.
Proof.
  intros E. destruct (trim_decompose s) as (ws & _ & Ed).
  rewrite E in Ed. simpl in Ed. exact (dropWhile_head _ _ _ _ Ed).
Qed.

(** [text.trim().split(/\s+/)]: the words of the text, or one empty
    string when the text has none. *)
Lemma split_trim text :
  split WHITESPACE_RUN (trim text) =
  match words text with
  | [] => [[]]
  | ws => ws
  end.
Proof.
  rewrite <- words_trim. destruct (trim text) as [|c t] eqn:E; [reflexivity|].
  unfold split. rewrite split_from_runs.
  - unfold words. destruct (runs [] (c :: t)) eqn:Er; [|reflexivity].
    exfalso. simpl in Er. rewrite (trim_starts _ _ _ E) in Er.
    revert Er. apply runs_cur_nonempty. discriminate.
  - lia.
  - rewrite <- E. apply trim_ends.
  - right. exists c, t. split; [reflexivity|]. exact (trim_starts _ _ _ E).
Qed.

Lemma split_trim_length text :
  length (split WHITESPACE_RUN (trim text)) = Nat.max 1 (length (words text)).
Proof.
  rewrite split_trim. destruct (words text); simpl; lia.
Qed.

Lemma Math_ceil_div_pos a b : 0 < a -> 0 < b -> 0 < Math_ceil_div a b.
Proof.
  intros Ha Hb. unfold Math_ceil_div.
  destruct (a mod b =? 0) eqn:E.
  - apply Nat.eqb_eq in E. pose proof (Nat.div_mod_eq a b). nia.
  - lia.
Qed.

Lemma js_inj a b : js a = js b -> a = b.
Proof.
  intros E. apply (f_equal string_of_list_ascii) in E.
  unfold js in E. rewrite !string_of_list_ascii_of_string in E. exact E.
Qed.

Lemma number_zero n : number n = js "0" -> n = 0.
Proof.
  intros E%js_inj. apply (f_equal NilZero.uint_of_string) in E.
  rewrite NilZero.usu in E.
  2:{ rewrite <- (Unsigned.of_to n), Unsigned.to_of. apply unorm_nonnil. }
  simpl in E. injection E as E.
  apply (f_equal Nat.of_uint) in E. rewrite Unsigned.of_to in E. exact E.
Qed.

(** ** Base64 *)

Lemma sextets_ok : forallb sextet_ok (map N.of_nat (seq 0 64)) = true.
Proof. vm_compute. reflexivity. Qed.

Lemma sextet_inv n :
  (n < 64)%N -> unsextet (sextet n) = Some n /\ is_char "=" (sextet n) = false.
Proof.
  intros Hn. pose proof sextets_ok as Hall. rewrite forallb_forall in Hall.
  assert (Hin : In n (map N.of_nat (seq 0 64))).
  { apply in_map_iff. exists (N.to_nat n). split; [lia|]. apply in_seq. lia. }
  apply Hall in Hin. unfold sextet_ok in Hin.
  destruct (unsextet (sextet n)) as [k|]; [|discriminate].
  apply andb_true_iff in Hin as [Hk Hc]. apply N.eqb_eq in Hk. subst k.
  split; [reflexivity|]. destruct (is_char "=" (sextet n)); [discriminate | reflexivity].
Qed.

Lemma byte_bound (b : byte) : (Byte.to_N b < 256)%N.
Proof. pose proof (Byte.to_N_bounded b). lia. Qed.

Lemma bytes_of_to_N bs : bytes_of (map Byte.to_N bs) = Some bs.
Proof.
  induction bs as [|b bs IH]; [reflexivity|].
  unfold bytes_of in *. cbn [map foldr]. rewrite Byte.of_to_N, IH. reflexivity.
Qed.

Lemma triples_ind (P : list byte -> Prop) :
  P [] -> (forall a, P [a]) -> (forall a b, P [a; b]) ->
  (forall a b c rest, P rest -> P (a :: b :: c :: rest)) ->
  forall data, P data.
Proof.
  intros H0 H1 H2 H3.
  assert (forall n data, length data < n -> P data) as Hall.
  { induction n as [|n IH]; intros data Hlen; [lia|].
    destruct data as [|a [|b [|c rest]]]; auto.
    apply H3, IH. simpl in Hlen. lia. }
  intros data. apply (Hall (S (length data))). lia.
Qed.

Ltac nlia := zify; Z.to_euclidean_division_equations; lia.

Ltac sextet_at n :=
  let H := fresh in
  let Hc := fresh in
  destruct (sextet_inv n) as [H Hc]; [nlia | rewrite ?H, ?Hc; clear H Hc].

(** Decoding what [base64] produced gives the bytes back. *)
Lemma base64_round_trip data : base64_decode (base64 data) = Some data.
Proof.
  induction data as [|a|a b|a b c rest IH] using triples_ind.
  - reflexivity.
  - pose proof (byte_bound a). cbn [base64 base64_decode].
    set (x := Byte.to_N a) in *.
    sextet_at (x / 4)%N. sextet_at (x mod 4 * 16)%N.
    change (is_char "=" "=") with true. cbn iota.
    replace (x / 4 * 4 + x mod 4 * 16 / 16)%N with x by nlia.
    apply (bytes_of_to_N [a]).
  - pose proof (byte_bound a). pose proof (byte_bound b).
    cbn [base64 base64_decode].
    set (x := Byte.to_N a) in *. set (y := Byte.to_N b) in *.
    sextet_at (x / 4)%N. sextet_at (x mod 4 * 16 + y / 16)%N.
    sextet_at (y mod 16 * 4)%N.
    change (is_char "=" "=") with true. cbn iota.
    replace (x / 4 * 4 + (x mod 4 * 16 + y / 16) / 16)%N with x by nlia.
    replace ((x mod 4 * 16 + y / 16) mod 16 * 16 + y mod 16 * 4 / 4)%N with y by nlia.
    apply (bytes_of_to_N [a; b]).
  - pose proof (byte_bound a). pose proof (byte_bound b). pose proof (byte_bound c).
    cbn [base64 base64_decode app].
    set (x := Byte.to_N a) in *. set (y := Byte.to_N b) in *.
    set (z := Byte.to_N c) in *.
    sextet_at (x / 4)%N. sextet_at (x mod 4 * 16 + y / 16)%N.
    sextet_at (y mod 16 * 4 + z / 64)%N. sextet_at (z mod 64)%N.
    rewrite IH.
    replace (x / 4 * 4 + (x mod 4 * 16 + y / 16) / 16)%N with x by nlia.
    replace ((x mod 4 * 16 + y / 16) mod 16 * 16 + (y mod 16 * 4 + z / 64) / 4)%N
      with y by nlia.
    replace ((y mod 16 * 4 + z / 64) mod 4 * 64 + z mod 64)%N with z by nlia.
    pose proof (bytes_of_to_N [a; b; c]) as E. cbn [map] in E.
    fold x y z in E. rewrite E. reflexivity.
Qed.

(** ** Extensions and the mime table *)

Lemma extname_shape p : extname p = [] \/ exists e, extname p = "."%char :: e.
Proof.
  unfold extname.
  destruct (dropWhile (non is_dot) _) as [|d [|d' stem]]; auto.
  destruct (takeWhile (non is_dot) _); destruct stem; eauto.
Qed.

Lemma toLowerCase_shape s :
  s = [] \/ (exists e, s = "."%char :: e) ->
  toLowerCase s = [] \/ exists e, toLowerCase s = "."%char :: e.
Proof. intros [-> | [e ->]]; [left | right; eexists]; reflexivity. Qed.

(** No inherited property is named by an extension. *)
Lemma not_inherited k :
  k = [] \/ (exists e, k = "."%char :: e) -> assoc k Object_prototype = Undefined.
Proof.
  intros [-> | [e ->]]; unfold assoc, Object_prototype;
    repeat (destruct (decide _) as [E|_]; [discriminate E|]); reflexivity.
Qed.


Lemma get_MIME_TYPES_whitelist e mime :
  In (e, mime) WHITELIST ->
  get MIME_TYPES ("."%char :: js e) = Str (js mime).
Proof.
  intros Hin. simpl in Hin.
  repeat (destruct Hin as [[= <- <-] | Hin]; [vm_compute; reflexivity|]).
  destruct Hin.
Qed.

(** ** The program on a disk *)

Lemma scan_from_text rx fuel s :
  length s < fuel -> concat (map piece_text (scan_from fuel rx s)) = s.
Proof.
  revert s. induction fuel as [|fuel IH]; intros s Hf; [lia|].
  cbn [scan_from].
  assert (Hstep : concat (map piece_text
                    match s with [] => [] | c :: t => Gap c :: scan_from fuel rx t end) = s).
  { destruct s as [|c t]; [reflexivity|]. simpl in *. rewrite IH by lia. reflexivity. }
  destruct (exec rx s) as [[[|n] caps]|] eqn:E.
  - exact Hstep.
  - apply exec_le in E. cbn [map concat piece_text].
    rewrite IH by (rewrite length_drop; lia). apply take_drop.
  - exact Hstep.
Qed.

(** The pieces of a scan, put back together, are the string. *)
Lemma scan_text rx s : concat (map piece_text (scan rx s)) = s.
Proof. apply scan_from_text. lia. Qed.

Section Facts.
Context `{Host}.

Lemma bind_Returned {A B} (c : M A) (k : A -> M B) w b w' :
  (c ≫= k) w = Returned b w' ->
  exists a w1, c w = Returned a w1 /\ k a w1 = Returned b w'.
Proof.
  unfold mbind, M_bind. destruct (c w) as [a w1|e w1|n w1]; [eauto| |]; discriminate.
Qed.

Lemma reading_Returned {A} api arg (f : fs -> option A) w a w' :
  reading api arg f w = Returned a w' -> f (disk w) = Some a /\ w' = w.
Proof.
  unfold reading. destruct (f (disk w)); [|discriminate].
  intros [= <- <-]. auto.
Qed.

Lemma resolveImagePath_left_alone contentDir src w :
  left_alone (disk w) contentDir src = true ->
  resolveImagePath src contentDir w = Returned None w.
Proof.
  unfold left_alone, resolveImagePath. intros Hl.
  destruct (startsWith (js "data:") src || startsWith (js "http://") src
            || startsWith (js "https://") src); [reflexivity|].
  simpl in Hl. apply negb_true_iff in Hl.
  unfold mbind, M_bind, reading. rewrite Hl. reflexivity.
Qed.

Lemma inline_one_left_alone contentDir whole groups count w :
  left_alone (disk w) contentDir (group 1 groups) = true ->
  inline_one contentDir whole groups count w = Returned (whole, count) w.
Proof.
  intros Hl. unfold inline_one, mbind, M_bind.
  rewrite (resolveImagePath_left_alone _ _ _ Hl). reflexivity.
Qed.

Lemma substitute_left_alone contentDir pieces count w :
  (forall whole groups, In (Hit whole groups) pieces ->
                        left_alone (disk w) contentDir (group 1 groups) = true) ->
  substitute (inline_one contentDir) pieces count w =
  Returned (concat (map piece_text pieces), count) w.
Proof.
  induction pieces as [|[c|whole groups] rest IH]; intros Hall; [reflexivity| |].
  - cbn [substitute]. unfold mbind, M_bind in *.
    rewrite IH by (intros wh gr Hin; apply (Hall wh gr); right; exact Hin).
    reflexivity.
  - cbn [substitute]. unfold mbind, M_bind in *.
    rewrite inline_one_left_alone by (apply (Hall whole groups); left; reflexivity).
    rewrite IH by (intros wh gr Hin; apply (Hall wh gr); right; exact Hin).
    reflexivity.
Qed.



Lemma collect_reads args w files w' :
  collect args w = Returned files w' -> w' = w.
Proof.
  assert (Hmd : forall files w', markdown_files w = Returned files w' -> w' = w).
  { intros fs' w1. unfold markdown_files.
    intros (names & w2 & Hr & Hk)%bind_Returned.
    apply reading_Returned in Hr as [_ ->]. injection Hk as _ <-. reflexivity. }
  unfold collect. destruct (includes (js "--all") args); [apply Hmd|].
  destruct (filter _ args); [apply Hmd|]. intros [= _ <-]. reflexivity.
Qed.

Lemma get_absent (o : object) (k : string) :
  o !! js k = None -> assoc (js k) Object_prototype = Undefined ->
  forall b, field o k b = b.
Proof. intros E Hp b. unfold field, get. rewrite E, Hp. reflexivity. Qed.


End Facts.

Section MoreFacts.
Context `{Host}.


Lemma writing_Returned api arg (f : fs -> option fs) w u w' :
  writing api arg f w = Returned u w' ->
  f (disk w) = Some (disk w') /\ console w' = console w.
Proof.
  unfold writing. destruct (f (disk w)); [|discriminate].
  intros [= _ <-]. auto.
Qed.




Lemma context_absent frontmatter coverImage markdown styles htmlContent k :
  ~ In k (map js ["title"; "subtitle"; "author"; "date"; "category";
                  "cover_image"; "og_image"; "read_time"; "footer"; "styles";
                  "content"]%string) ->
  context frontmatter coverImage markdown styles htmlContent !! k = None.
Proof.
  intros Hk. unfold context. cbn [list_to_map foldr].
  repeat (rewrite lookup_insert_ne;
          [|intros <-; apply Hk; cbn [map In]; tauto]).
  apply lookup_empty.
Qed.

Lemma context_read_time frontmatter coverImage markdown styles htmlContent :
  context frontmatter coverImage markdown styles htmlContent !! js "read_time" =
  Some (field frontmatter "read_time" (readingTime markdown)).
Proof.
  unfold context. cbn [list_to_map foldr].
  repeat (rewrite lookup_insert_ne; [|discriminate]).
  apply lookup_insert_eq.
Qed.
End MoreFacts.

Lemma readingTime_words text :
  readingTime text =
  number (Math_ceil_div (Nat.max 1 (length (words text))) 230) ++ js " min read".
Proof. unfold readingTime. rewrite split_trim_length. reflexivity. Qed.

Lemma words_blank text : forallb is_space text = true -> words text = [].
Proof. intros Hb. unfold words. apply (runs_trailing [] [] text Hb). Qed.

(** The example of the specification for conditional blocks. *)
Example processConditionals_example :
  processConditionals (js "{{#if x}}A{{/if}}{{#if y}}B{{/if}}")
                      {[ js "x" := js "1" ]} = js "A".
Proof. vm_compute. reflexivity. Qed.

(** The examples of the specification for placeholders. *)
Example replacePlaceholders_example :
  replacePlaceholders (js "{{title}}") {[ js "title" := js "Hello" ]} = js "Hello"
  /\ replacePlaceholders (js "{{title}}") ∅ = [].
Proof. split; vm_compute; reflexivity. Qed.

(** ** The properties of the specification *)

(** C1, at the input where the script departs from it: in the render
    context of [compile], which has no key [constructor], the block
    guarded by [constructor] is kept, because the guard is read through
    the prototype of the context object.  For every other shape of
    guard the block is resolved as claimed, see
    [processConditionals_region] and [processConditionals_example]. *)
Theorem processConditionals_inherited_guard
        (frontmatter : object) (coverImage markdown styles htmlContent : str) :
  let data := context frontmatter coverImage markdown styles htmlContent in
  data !! js "constructor" = None
  /\ processConditionals (js "{{#if constructor}}A{{/if}}") data = js "A".
Proof.
  intros data.
  assert (Hk : data !! js "constructor" = None).
  { apply context_absent. cbn [map In]. intros Hin.
    repeat (destruct Hin as [Hin | Hin]; [discriminate Hin|]). exact Hin. }
  split; [exact Hk|].
  change (js "{{#if constructor}}A{{/if}}")
    with ([] ++ if_open (js "constructor") ++ js "A" ++ IF_CLOSE ++ []).
  rewrite processConditionals_region by reflexivity.
  unfold resolved, get. rewrite Hk. reflexivity.
Qed.

(** C2, at the input where the script departs from it: in the render
    context of [compile], which has no key [constructor], the
    placeholder of that name is not replaced by the empty string but by
    the text of the inherited function.  For a name that is a key, or
    that no object inherits, the token is replaced as claimed, see
    [replacePlaceholders_token] and [replacePlaceholders_example]. *)
Theorem replacePlaceholders_inherited_name
        (frontmatter : object) (coverImage markdown styles htmlContent : str) :
  let data := context frontmatter coverImage markdown styles htmlContent in
  data !! js "constructor" = None
  /\ replacePlaceholders (js "{{constructor}}") data =
     js "function Object() { [native code] }".
Proof.
  intros data.
  assert (Hk : data !! js "constructor" = None).
  { apply context_absent. cbn [map In]. intros Hin.
    repeat (destruct Hin as [Hin | Hin]; [discriminate Hin|]). exact Hin. }
  split; [exact Hk|].
  change (js "{{constructor}}") with ([] ++ placeholder (js "constructor") ++ []).
  rewrite replacePlaceholders_token by reflexivity.
  unfold substituted, get. rewrite Hk. reflexivity.
Qed.


(** C4: for a file whose extension is on the whitelist, [toDataUri]
    returns [data:<mime>;base64,<payload>] with the mime type of the
    extension, and decoding the payload gives the bytes of the file. *)
Theorem toDataUri_round_trip `{Host}
        (filePath : str) (e mime : string) (data : list byte) (w : World) :
  In (e, mime) WHITELIST ->
  toLowerCase (extname filePath) = "."%char :: js e ->
  readFileSync (disk w) filePath = Some data ->
  exists payload,
    toDataUri filePath w =
    Returned (Some (js "data:" ++ js mime ++ js ";base64," ++ payload)) w
    /\ base64_decode payload = Some data.
Proof.
  intros Hin Hext Hread. exists (base64 data). split; [|apply base64_round_trip].
  unfold toDataUri. rewrite Hext, (get_MIME_TYPES_whitelist _ _ Hin).
  assert (truthy (Str (js mime)) = true) as ->.
  { simpl in Hin. repeat (destruct Hin as [[= <- <-] | Hin]; [reflexivity|]).
    destruct Hin. }
  cbn [negb]. unfold mbind, M_bind, fs_readFileSync, reading.
  rewrite Hread. reflexivity.
Qed.


(** C6: a reference that begins with [http://], [https://] or [data:],
    or that names no file on the disk, is not resolved; the image tag
    or the cover image that holds it is returned as it was, nothing is
    printed and nothing is thrown; a page all of whose image tags hold
    such references comes out of [inlineImages] unchanged. *)
Theorem non_local_reference_untouched `{Host} (contentDir src : str) (w : World) :
  left_alone (disk w) contentDir src = true ->
  resolveImagePath src contentDir w = Returned None w
  /\ (forall whole groups count,
        group 1 groups = src ->
        inline_one contentDir whole groups count w = Returned (whole, count) w)
  /\ (forall frontmatter,
        field frontmatter "cover_image" [] = src ->
        cover frontmatter contentDir w = Returned src w)
  /\ (forall html,
        (forall whole groups,
            In (Hit whole groups) (scan IMG_SRC html) ->
            left_alone (disk w) contentDir (group 1 groups) = true) ->
        inlineImages html contentDir w = Returned html w).
Proof.
  intros Hl. split; [exact (resolveImagePath_left_alone _ _ _ Hl)|].
  split; [|split].
  - intros whole groups count <-. apply inline_one_left_alone, Hl.
  - intros frontmatter Hc. unfold cover. rewrite Hc.
    destruct src as [|c src]; [reflexivity|].
    unfold mbind, M_bind. rewrite (resolveImagePath_left_alone _ _ _ Hl).
    reflexivity.
  - intros html Hall. unfold inlineImages, mbind, M_bind.
    rewrite substitute_left_alone by exact Hall. rewrite scan_text. reflexivity.
Qed.

(** C7: without a [read_time] in the front matter, the render context
    gets [readingTime] of the body; for a body of [n] words, [n] at
    least 1, the split of the trimmed body has [n] tokens and the
    result is [ceil(n / 230)], at least 1, followed by [ min read]:
    1 for one word and for 230 words, 2 for 231 words. *)
Theorem reading_time_of_words
        (frontmatter : object) (coverImage markdown styles htmlContent : str)
        (n : nat) :
  frontmatter !! js "read_time" = None ->
  length (words markdown) = n ->
  1 <= n ->
  context frontmatter coverImage markdown styles htmlContent !! js "read_time" =
    Some (readingTime markdown)
  /\ length (split WHITESPACE_RUN (trim markdown)) = n
  /\ readingTime markdown = number (Math_ceil_div n 230) ++ js " min read"
  /\ 1 <= Math_ceil_div n 230
  /\ (n = 1 -> readingTime markdown = js "1 min read")
  /\ (n = 230 -> readingTime markdown = js "1 min read")
  /\ (n = 231 -> readingTime markdown = js "2 min read").
Proof.
  intros Hfm Hn Hpos.
  assert (E : readingTime markdown = number (Math_ceil_div n 230) ++ js " min read").
  { rewrite readingTime_words, Hn. replace (Nat.max 1 n) with n by lia. reflexivity. }
  split.
  { rewrite context_read_time. f_equal. apply get_absent; [exact Hfm | reflexivity]. }
  split; [rewrite split_trim_length; lia|].
  split; [exact E|].
  split; [apply Math_ceil_div_pos; lia|].
  repeat split; intros ->; exact E.
Qed.


(** C9: when the collect step finds no file, which only the scan of
    the content directory can do, [main] prints the guidance message
    and exits with status 0; nothing else is printed and the disk is as
    it was, so no post was compiled and no file written. *)
Theorem empty_batch_exits_0 `{Host} (args : list str) (w w' : World) :
  collect args w = Returned [] w' ->
  markdown_files w = Returned [] w
  /\ main args w = Exited 0 (printed log_no_markdown_files w)
  /\ node_build args w = (0%Z, printed log_no_markdown_files w)
  /\ disk (node_build args w).2 = disk w
  /\ console (node_build args w).2 = console w ++ [log_no_markdown_files].
Proof.
  intros Hc. pose proof (collect_reads _ _ _ _ Hc) as ->.
  assert (E : main args w = Exited 0 (printed log_no_markdown_files w)).
  { unfold main, mbind, M_bind. rewrite Hc. reflexivity. }
  split.
  { unfold collect in Hc. destruct (includes (js "--all") args); [exact Hc|].
    destruct (filter _ args); [exact Hc | discriminate Hc]. }
  split; [exact E|]. unfold node_build. rewrite E. auto.
Qed.

(** C10: [readingTime] never returns [0 min read]; for an empty body
    or one of white space only, the trimmed body splits into one empty
    token and the result is [1 min read]. *)
Theorem reading_time_never_zero (text : str) :
  readingTime text <> js "0 min read"
  /\ (forallb is_space text = true ->
      split WHITESPACE_RUN (trim text) = [[]]
      /\ readingTime text = js "1 min read").
Proof.
  split.
  - rewrite readingTime_words.
    change (js "0 min read") with (js "0" ++ js " min read").
    intros E%app_inv_tail%number_zero.
    pose proof (Math_ceil_div_pos (Nat.max 1 (length (words text))) 230).
    lia.
  - intros Hb. split.
    + rewrite split_trim, (words_blank _ Hb). reflexivity.
    + rewrite readingTime_words, (words_blank _ Hb). reflexivity.
Qed.

(** ** The theorems at work on the demo project *)


Lemma toDataUri_round_trip_witness :
  exists payload,
    @toDataUri Demo.host (js "/blog/content/dot.png") Demo.empty_project =
    Returned (Some (js "data:" ++ js "image/png" ++ js ";base64," ++ payload))
             Demo.empty_project
    /\ base64_decode payload = Some (Demo.bytes "PNG").
Proof.
  apply (@toDataUri_round_trip Demo.host (js "/blog/content/dot.png") "png" "image/png").
  - left. reflexivity.
  - vm_compute. reflexivity.
  - vm_compute. reflexivity.
Defined.


Lemma non_local_reference_untouched_witness :
  @inlineImages Demo.host
    (js "<img src='https://ex.com/a.png'> <img src='missing.png'>")
    (js "/blog/content") Demo.empty_project =
  Returned (js "<img src='https://ex.com/a.png'> <img src='missing.png'>")
           Demo.empty_project.
Proof.
  apply (@non_local_reference_untouched Demo.host (js "/blog/content")
           (js "https://ex.com/a.png") Demo.empty_project).
  - vm_compute. reflexivity.
  - intros whole groups Hin. vm_compute in Hin.
    repeat (destruct Hin as [Hin | Hin];
            [try discriminate Hin; injection Hin as <- <-; vm_compute; reflexivity|]).
    destruct Hin.
Defined.

Lemma reading_time_of_words_witness :
  context ∅ [] (Demo.word_list 231) [] [] !! js "read_time" =
    Some (readingTime (Demo.word_list 231))
  /\ readingTime (Demo.word_list 231) = js "2 min read".
Proof.
  pose proof (reading_time_of_words ∅ [] (Demo.word_list 231) [] [] 231) as Hw.
  destruct Hw as (Hc & _ & _ & _ & _ & _ & H231).
  - reflexivity.
  - vm_compute. reflexivity.
  - lia.
  - split; [exact Hc | exact (H231 eq_refl)].
Defined.


Lemma empty_batch_exits_0_witness :
  @node_build Demo.host [] Demo.empty_project =
  (0%Z, printed log_no_markdown_files Demo.empty_project).
Proof.
  apply (@empty_batch_exits_0 Demo.host [] Demo.empty_project Demo.empty_project).
  vm_compute. reflexivity.
Defined.

Lemma reading_time_never_zero_witness :
  split WHITESPACE_RUN (trim (js "   ")) = [[]]
  /\ readingTime (js "   ") = js "1 min read".
Proof.
  apply (reading_time_never_zero (js "   ")). reflexivity.
Defined.

(** One post, built from end to end: the missing title becomes
    [Untitled], the block of the absent subtitle is dropped, the
    picture is inlined, the text file is refused with a warning and the
    network reference is kept. *)
Example node_build_demo :
  let post :=
    Demo.bytes
      "Hi <img src='dot.png'> <img src='notes.txt'> <IMG SRC='https://ex.com/a.png'>" in
  let project :=
    @Build_World Demo.host
      (Demo.write (js "/blog/content/a.md") post (@disk Demo.host Demo.empty_project))
      [] in
  let '(status, w) := @node_build Demo.host [] project in
  status = 0%Z
  /\ @console Demo.host w =
     [ log_building 1;
       warn_unsupported_image_type (js ".txt") (js "/blog/content/notes.txt");
       log_inlined 1;
       log_compiled (js "a.md") (js "a") 113;
       log_done ]
  /\ Demo.lookup (js "/blog/dist/a.html") (Demo.files (@disk Demo.host w)) =
     Some (Demo.bytes
       "<h1>Untitled</h1>Hi <img src='data:image/png;base64,UE5H'> <img src='notes.txt'> <IMG SRC='https://ex.com/a.png'>").
Proof. vm_compute. repeat split; reflexivity. Qed.

(** * Further properties of the script *)

(** ** The template renderer *)

Lemma inherited_false name : inherited name = false -> assoc name Object_prototype = Undefined.
Proof. unfold inherited. destruct (assoc name Object_prototype); [reflexivity | discriminate..]. Qed.

(** X1: for blocks whose guards are not names inherited from
    [Object.prototype], [processConditionals] is decided by the keys of
    the context: the text before a block is copied, the block gives its
    inside when the guard is a key with a non-empty value and nothing
    otherwise, markers removed, and this for any number of blocks in a
    row. *)
Theorem processConditionals_by_key (data : object) (blocks : list block) (rest : str) :
  forallb block_ok blocks = true ->
  forallb (fun b => negb (inherited (guard b))) blocks = true ->
  processConditionals (concat (map block_source blocks) ++ rest) data =
  concat (map (block_by_key data) blocks) ++ processConditionals rest data.
Proof.
  intros Hok Hown. rewrite processConditionals_blocks by exact Hok. f_equal. f_equal.
  clear Hok. induction blocks as [|b blocks IH]; [reflexivity|].
  simpl in Hown. apply andb_true_iff in Hown as [Hb Hown].
  apply negb_true_iff, inherited_false in Hb.
  cbn [map]. rewrite (IH Hown). f_equal.
  unfold block_rendered, block_by_key. rewrite (resolved_own _ _ _ Hb). reflexivity.
Qed.

Lemma processConditionals_by_key_witness :
  let data : object := {[ js "title" := js "Hello" ]} in
  let blocks :=
    [ {| text_before := js "<h1>"; guard := js "title"; inside := js "T" |};
      {| text_before := js "</h1>"; guard := js "subtitle"; inside := js "S" |} ] in
  processConditionals (concat (map block_source blocks) ++ js "!") data =
  concat (map (block_by_key data) blocks) ++ processConditionals (js "!") data.
Proof.
  intros data blocks.
  apply (processConditionals_by_key data blocks (js "!")); vm_compute; reflexivity.
Defined.

(** X2: for placeholders whose names are not inherited,
    [replacePlaceholders] puts the value of the key, or nothing when
    the key is absent, in place of each token and copies the text in
    between; the value goes into the output as it is and is not
    scanned again, whatever it contains. *)
Theorem replacePlaceholders_by_key (data : object) (tokens : list token) (rest : str) :
  forallb token_ok tokens = true ->
  forallb (fun t => negb (inherited (name_of t))) tokens = true ->
  replacePlaceholders (concat (map token_source tokens) ++ rest) data =
  concat (map (token_by_key data) tokens) ++ replacePlaceholders rest data.
Proof.
  intros Hok Hown. rewrite replacePlaceholders_tokens by exact Hok. f_equal. f_equal.
  clear Hok. induction tokens as [|t tokens IH]; [reflexivity|].
  simpl in Hown. apply andb_true_iff in Hown as [Ht Hown].
  apply negb_true_iff, inherited_false in Ht.
  cbn [map]. rewrite (IH Hown). f_equal.
  unfold token_rendered, token_by_key. rewrite (substituted_own _ _ Ht). reflexivity.
Qed.

Lemma replacePlaceholders_by_key_witness :
  let data : object :=
    <[ js "title" := js "{{content}}" ]> {[ js "content" := js "<p>{{title}}</p>" ]} in
  let tokens :=
    [ {| text_ahead := js "<h1>"; name_of := js "title" |};
      {| text_ahead := js "</h1>"; name_of := js "content" |};
      {| text_ahead := []; name_of := js "footer" |} ] in
  replacePlaceholders (concat (map token_source tokens) ++ []) data =
  concat (map (token_by_key data) tokens) ++ replacePlaceholders [] data.
Proof.
  intros data tokens.
  apply (replacePlaceholders_by_key data tokens []); vm_compute; reflexivity.
Defined.

Lemma index_of_suffix pat u v : index_of pat (u ++ v) = None -> index_of pat v = None.
Proof.
  induction u as [|c u IH]; [auto|]. cbn [app index_of].
  destruct (startsWith pat (c :: u ++ v)); [discriminate|].
  destruct (index_of pat (u ++ v)); [discriminate | auto].
Qed.

(** X3: a template in which [{{/if}}] does not occur is returned by
    [processConditionals] as it is: an opening marker that is never
    closed is not a block, and stays in the text. *)
Theorem processConditionals_unclosed (data : object) (s : str) :
  index_of IF_CLOSE s = None -> processConditionals s data = s.
Proof.
  intros Hs. unfold processConditionals.
  rewrite <- (app_nil_r s) at 1. rewrite replace_app_quiet.
  - rewrite replace_nil by reflexivity. apply app_nil_r.
  - intros i _. rewrite app_nil_r, exec_IF_BLOCK.
    destruct (marker_at IF_OPEN (drop i s)) as [[name rest]|] eqn:Hm; [|reflexivity].
    apply marker_at_inv in Hm as [_ Hm].
    assert (index_of IF_CLOSE rest = None) as ->; [|reflexivity].
    rewrite <- (take_drop i s), Hm in Hs.
    rewrite !app_assoc in Hs. exact (index_of_suffix _ _ _ Hs).
Qed.

Lemma processConditionals_unclosed_witness :
  processConditionals (js "a{{#if x}}b{{/if") ∅ = js "a{{#if x}}b{{/if".
Proof. apply processConditionals_unclosed. vm_compute. reflexivity. Defined.

Lemma no_match_in_IF_CLOSE rest i :
  i < length IF_CLOSE -> exec IF_BLOCK (drop i (IF_CLOSE ++ rest)) = None.
Proof.
  intros Hi. rewrite exec_IF_BLOCK.
  do 7 (destruct i as [|i]; [reflexivity|]). simpl in Hi. lia.
Qed.

(** X4: blocks do not nest.  The first [{{/if}}] after an opening
    marker closes it: an opening marker inside the block is part of the
    block's text, and the closing marker that was meant for the outer
    block stays in the output. *)
Theorem processConditionals_nested (data : object) (outer inner x y z rest : str) :
  is_name outer = true ->
  index_of IF_CLOSE (x ++ if_open inner ++ y ++ IF_CLOSE)
  = Some (length (x ++ if_open inner ++ y)) ->
  has_marker IF_OPEN z = false ->
  processConditionals
    (if_open outer ++ x ++ if_open inner ++ y ++ IF_CLOSE ++ z ++ IF_CLOSE ++ rest)
    data
  = resolved data outer (x ++ if_open inner ++ y) ++ z ++ IF_CLOSE
    ++ processConditionals rest data.
Proof.
  intros Ho Hc Hz.
  pose proof (processConditionals_region data [] outer (x ++ if_open inner ++ y)
                (z ++ IF_CLOSE ++ rest) eq_refl Ho) as E.
  rewrite <- !app_assoc in E. cbn [app] in E.
  rewrite (E Hc). clear E. f_equal.
  unfold processConditionals at 1.
  rewrite replace_app_quiet.
  2:{ intros i Hi. rewrite exec_IF_BLOCK, marker_free_text; auto. }
  apply (f_equal (app z)).
  rewrite replace_app_quiet by apply no_match_in_IF_CLOSE. reflexivity.
Qed.

Lemma processConditionals_nested_witness :
  processConditionals
    (if_open (js "a") ++ js "X" ++ if_open (js "b") ++ js "Y" ++ IF_CLOSE ++ js "Z"
       ++ IF_CLOSE ++ js "!") {[ js "a" := js "1" ]}
  = resolved {[ js "a" := js "1" ]} (js "a") (js "X" ++ if_open (js "b") ++ js "Y")
    ++ js "Z" ++ IF_CLOSE ++ processConditionals (js "!") {[ js "a" := js "1" ]}.
Proof.
  apply (processConditionals_nested {[ js "a" := js "1" ]} (js "a") (js "b")
           (js "X") (js "Y") (js "Z") (js "!")); vm_compute; reflexivity.
Defined.

Lemma no_mustache_no_marker open t :
  opening open = true -> index_of MUSTACHE t = None -> has_marker open t = false.
Proof.
  intros [Ho _]%andb_true_iff. apply startsWith_spec in Ho as [o' ->].
  induction t as [|c t IH]; cbn [index_of has_marker]; intros Hi.
  - destruct (marker_at _ []) as [[n r]|] eqn:Hm; [|reflexivity].
    apply marker_at_inv in Hm as [_ Hm]. discriminate Hm.
  - destruct (startsWith MUSTACHE (c :: t)) eqn:Hs; [discriminate|].
    destruct (index_of MUSTACHE t); [discriminate|].
    destruct (marker_at _ (c :: t)) as [[n r]|] eqn:Hm; [|auto].
    apply marker_at_inv in Hm as [_ Hm].
    assert (startsWith MUSTACHE (c :: t) = true); [|congruence].
    apply startsWith_spec. rewrite Hm. rewrite <- app_assoc. eauto.
Qed.

(** X5: a text in which [{{] does not occur goes through both passes
    of the renderer unchanged. *)
Theorem render_plain_text (data : object) (t : str) :
  index_of MUSTACHE t = None ->
  processConditionals t data = t
  /\ replacePlaceholders t data = t
  /\ replacePlaceholders (processConditionals t data) data = t.
Proof.
  intros Ht.
  assert (E1 : processConditionals t data = t)
    by (apply processConditionals_text, no_mustache_no_marker; auto).
  assert (E2 : replacePlaceholders t data = t)
    by (apply replacePlaceholders_text, no_mustache_no_marker; auto).
  rewrite E1. auto.
Qed.

Lemma render_plain_text_witness :
  replacePlaceholders (processConditionals (js "body { color: red } {x}") ∅) ∅
  = js "body { color: red } {x}".
Proof. apply (render_plain_text ∅ (js "body { color: red } {x}")). vm_compute. reflexivity. Defined.

Lemma context_optional frontmatter coverImage markdown styles htmlContent k :
  In k OPTIONAL_FIELDS ->
  frontmatter !! js k = None ->
  context frontmatter coverImage markdown styles htmlContent !! js k = Some [].
Proof.
  intros Hin Hfm. unfold context. cbn [list_to_map foldr].
  simpl in Hin.
  repeat (destruct Hin as [<- | Hin];
          [repeat (rewrite lookup_insert_ne; [|discriminate]);
           rewrite lookup_insert_eq; f_equal;
           apply get_absent; [exact Hfm | reflexivity]|]).
  destruct Hin.
Qed.

(** X6: an optional field that the front matter does not have is the
    empty string in the render context of [compile], so the template's
    block for it is dropped and its placeholder leaves nothing. *)
Theorem absent_optional_field_omitted
        (frontmatter : object) (coverImage markdown styles htmlContent : str)
        (k : string) (b : block) (t : token) (rest : str) :
  In k OPTIONAL_FIELDS ->
  frontmatter !! js k = None ->
  block_ok b = true -> guard b = js k ->
  token_ok t = true -> name_of t = js k ->
  let data := context frontmatter coverImage markdown styles htmlContent in
  data !! js k = Some []
  /\ processConditionals (block_source b ++ rest) data
     = text_before b ++ processConditionals rest data
  /\ replacePlaceholders (token_source t ++ rest) data
     = text_ahead t ++ replacePlaceholders rest data.
Proof.
  intros Hin Hfm Hb Hg Ht Hn data.
  assert (Hk : data !! js k = Some ([] : str))
    by (apply context_optional; assumption).
  split; [exact Hk|]. split.
  - pose proof (processConditionals_blocks data [b] rest) as E.
    cbn [map concat forallb] in E. rewrite app_nil_r, andb_true_r in E.
    rewrite <- !app_assoc in E. rewrite (E Hb).
    unfold block_rendered, resolved, get. rewrite Hg, Hk. cbn [truthy].
    rewrite !app_nil_r. reflexivity.
  - pose proof (replacePlaceholders_tokens data [t] rest) as E.
    cbn [map concat forallb] in E. rewrite app_nil_r, andb_true_r in E.
    rewrite <- !app_assoc in E. rewrite (E Ht).
    unfold token_rendered, substituted, get. rewrite Hn, Hk. cbn [ToString].
    rewrite !app_nil_r. reflexivity.
Qed.

Lemma absent_optional_field_omitted_witness :
  let data := context ∅ [] (js "Hello") [] (js "<p>Hello</p>") in
  let b := {| text_before := js "<h1>T</h1>"; guard := js "subtitle";
              inside := js "<h2>{{subtitle}}</h2>" |} in
  processConditionals (block_source b ++ js "{{content}}") data
  = js "<h1>T</h1>" ++ processConditionals (js "{{content}}") data.
Proof.
  intros data b.
  apply (absent_optional_field_omitted ∅ [] (js "Hello") [] (js "<p>Hello</p>")
           "subtitle" b {| text_ahead := []; name_of := js "subtitle" |}
           (js "{{content}}")); try reflexivity.
  left. reflexivity.
Defined.

(** ** Reading time *)

Lemma Math_ceil_div_bounds a b :
  0 < a -> 0 < b ->
  b * (Math_ceil_div a b - 1) < a /\ a <= b * Math_ceil_div a b.
Proof.
  intros Ha Hb. unfold Math_ceil_div.
  pose proof (Nat.div_mod_eq a b) as E.
  pose proof (Nat.mod_upper_bound a b ltac:(lia)) as Hm.
  destruct (a mod b =? 0) eqn:Ez.
  - apply Nat.eqb_eq in Ez. assert (0 < a / b) by nia. nia.
  - apply Nat.eqb_neq in Ez. nia.
Qed.

(** X7: for a body of [n] words, [n] at least 1, the minutes [m] that
    [readingTime] prints are the least with [n <= 230 * m]. *)
Theorem readingTime_bounds (text : str) (n : nat) :
  length (words text) = n -> 1 <= n ->
  exists m,
    readingTime text = number m ++ js " min read"
    /\ 230 * (m - 1) < n /\ n <= 230 * m.
Proof.
  intros Hn Hpos. exists (Math_ceil_div n 230). split.
  - rewrite readingTime_words, Hn. replace (Nat.max 1 n) with n by lia. reflexivity.
  - apply Math_ceil_div_bounds; lia.
Qed.

Lemma readingTime_bounds_witness :
  exists m,
    readingTime (Demo.word_list 461) = number m ++ js " min read"
    /\ 230 * (m - 1) < 461 /\ 461 <= 230 * m.
Proof.
  apply (readingTime_bounds (Demo.word_list 461) 461); [vm_compute; reflexivity | lia].
Defined.

Lemma runs_leading ws s : forallb is_space ws = true -> runs [] (ws ++ s) = runs [] s.
Proof.
  induction ws as [|w ws IH]; [reflexivity|]. simpl.
  intros [-> Hws]%andb_true_iff. auto.
Qed.

(** X8: white space around the body does not count: [readingTime] of
    a body with white space put before and after it is [readingTime] of
    the body. *)
Theorem readingTime_padding (before text after : str) :
  forallb is_space before = true ->
  forallb is_space after = true ->
  readingTime (before ++ text ++ after) = readingTime text.
Proof.
  intros Hb Ha. rewrite !readingTime_words. unfold words.
  rewrite runs_leading, runs_trailing by assumption. reflexivity.
Qed.

Lemma readingTime_padding_witness :
  readingTime (js "  " ++ Demo.word_list 230 ++ [ascii_of_nat 10; ascii_of_nat 10])
  = readingTime (Demo.word_list 230).
Proof. apply readingTime_padding; reflexivity. Defined.

Lemma runs_tokens cur s :
  forallb (non is_space) cur = true -> Forall (fun tok => is_token tok = true) (runs cur s).
Proof.
  revert cur. induction s as [|c s IH]; intros cur Hcur; simpl.
  - destruct cur; [constructor|]. constructor; [exact Hcur | constructor].
  - destruct (is_space c) eqn:Ec.
    + destruct cur; [apply IH; reflexivity|].
      constructor; [exact Hcur | apply IH; reflexivity].
    + apply IH. rewrite forallb_app, Hcur. simpl. unfold non. rewrite Ec. reflexivity.
Qed.

Lemma runs_some cur s : existsb (non is_space) s = true -> runs cur s <> [].
Proof.
  revert cur. induction s as [|c s IH]; intros cur; simpl; [discriminate|].
  unfold non at 1. destruct (is_space c); simpl.
  - intros Hs. destruct cur; [apply IH; exact Hs | discriminate].
  - intros _. apply runs_cur_nonempty. destruct cur; discriminate.
Qed.

(** X9: when the body has a character that is not white space, the
    tokens that [readingTime] counts are the words of the body: each is
    non-empty and free of white space, and none is the empty string. *)
Theorem split_trim_tokens (text : str) :
  existsb (non is_space) text = true ->
  split WHITESPACE_RUN (trim text) = words text
  /\ Forall (fun tok => is_token tok = true) (split WHITESPACE_RUN (trim text))
  /\ 1 <= length (split WHITESPACE_RUN (trim text)).
Proof.
  intros Hs. pose proof (runs_some [] text Hs) as Hne. fold (words text) in Hne.
  assert (E : split WHITESPACE_RUN (trim text) = words text).
  { rewrite split_trim. destruct (words text); [congruence | reflexivity]. }
  rewrite E. split; [reflexivity|]. split.
  - apply runs_tokens. reflexivity.
  - destruct (words text); [congruence | simpl; lia].
Qed.

Lemma split_trim_tokens_witness :
  split WHITESPACE_RUN (trim (js "  two   words ")) = words (js "  two   words ").
Proof. apply split_trim_tokens. reflexivity. Defined.

(** ** Base64 and data URIs *)

(** X10: [base64] writes four characters for every three bytes, the
    last group padded: the length is [4 * ceil(n / 3)]. *)
Theorem base64_length (data : list byte) :
  length (base64 data) = 4 * ((length data + 2) / 3).
Proof.
  induction data as [|a|a b|a b c rest IH] using triples_ind; try reflexivity.
  cbn [base64 length app]. rewrite IH.
  replace (S (S (S (length rest))) + 2) with (length rest + 2 + 1 * 3) by lia.
  rewrite Nat.div_add by lia. lia.
Qed.

Lemma sextet_in n : In (sextet n) (BASE64 ++ ["="%char]).
Proof.
  unfold sextet. destruct (nth_in_or_default (N.to_nat n) BASE64 "="%char) as [Hin | ->].
  - apply in_or_app. left. exact Hin.
  - apply in_or_app. right. left. reflexivity.
Qed.

Lemma alphabet_safe : forallb attribute_safe (BASE64 ++ ["="%char]) = true.
Proof. vm_compute. reflexivity. Qed.

Lemma sextet_safe n : attribute_safe (sextet n) = true.
Proof.
  pose proof alphabet_safe as Hall. rewrite forallb_forall in Hall.
  apply Hall, sextet_in.
Qed.

Lemma base64_safe data : forallb attribute_safe (base64 data) = true.
Proof.
  induction data as [|a|a b|a b c rest IH] using triples_ind;
    cbn [base64 forallb app]; rewrite ?sextet_safe, ?IH; reflexivity.
Qed.

Lemma MIME_TYPES_safe ext mime :
  MIME_TYPES !! ext = Some mime -> forallb attribute_safe mime = true.
Proof.
  intros Hm. apply elem_of_list_to_map_2, list_elem_of_In in Hm. simpl in Hm.
  repeat (destruct Hm as [[= <- <-] | Hm]; [vm_compute; reflexivity|]).
  destruct Hm.
Qed.

Lemma toDataUri_Some `{Host} (filePath : str) (w w' : World) (uri : str) :
  toDataUri filePath w = Returned (Some uri) w' ->
  exists mime data,
    MIME_TYPES !! toLowerCase (extname filePath) = Some mime
    /\ readFileSync (disk w) filePath = Some data
    /\ uri = js "data:" ++ mime ++ js ";base64," ++ base64 data
    /\ w' = w.
Proof.
  unfold toDataUri, get.
  destruct (MIME_TYPES !! toLowerCase (extname filePath)) as [mime|] eqn:Hm.
  - destruct (truthy (Str mime)); cbn [negb]; [|discriminate].
    unfold mbind, M_bind, fs_readFileSync, reading.
    destruct (readFileSync (disk w) filePath) as [data|]; [|discriminate].
    intros [= <- <-]. exists mime, data. auto.
  - rewrite not_inherited by apply toLowerCase_shape, extname_shape. discriminate.
Qed.

Lemma data_uri_safe ext mime data :
  MIME_TYPES !! ext = Some mime ->
  forallb attribute_safe (js "data:" ++ mime ++ js ";base64," ++ base64 data) = true.
Proof.
  intros Hm. rewrite !forallb_app, (MIME_TYPES_safe _ _ Hm), base64_safe. reflexivity.
Qed.

(** X11: whatever [toDataUri] returns as a data URI begins with
    [data:] and has no quote, no [>] and no white space in it, so it
    can take the place of the [src] value inside the quotes of the tag
    without ending the attribute or the tag. *)
Theorem toDataUri_attribute_safe `{Host} (filePath : str) (w w' : World) (uri : str) :
  toDataUri filePath w = Returned (Some uri) w' ->
  startsWith (js "data:") uri = true
  /\ forallb attribute_safe uri = true
  /\ w' = w.
Proof.
  intros (mime & data & Hm & _ & -> & ->)%toDataUri_Some.
  split; [reflexivity|]. split; [exact (data_uri_safe _ _ data Hm) | reflexivity].
Qed.

Lemma toDataUri_attribute_safe_witness :
  forallb attribute_safe (js "data:image/png;base64,UE5H") = true.
Proof.
  apply (@toDataUri_attribute_safe Demo.host (js "/blog/content/dot.png")
           Demo.empty_project Demo.empty_project (js "data:image/png;base64,UE5H")).
  vm_compute. reflexivity.
Defined.

(** ** What a match consists of *)

Section MatcherSound.
Context {R : Type}.

Lemma star_greedy_sound p s (k : str -> option R) res :
  star_greedy p s k = Some res ->
  exists pre rest, s = pre ++ rest /\ forallb p pre = true /\ k rest = Some res.
Proof.
  induction s as [|c s IH]; simpl.
  - intros Hk. exists [], []. auto.
  - destruct (p c) eqn:Ec; [|intros Hk; exists [], (c :: s); auto].
    destruct (star_greedy p s k) eqn:E.
    + intros [= <-]. destruct (IH eq_refl) as (pre & rest & -> & Hp & Hk).
      exists (c :: pre), rest. simpl. rewrite Ec, Hp. auto.
    + intros Hk. exists [], (c :: s). auto.
Qed.

Lemma star_lazy_sound p s (k : str -> option R) res :
  star_lazy p s k = Some res ->
  exists pre rest, s = pre ++ rest /\ forallb p pre = true /\ k rest = Some res.
Proof.
  induction s as [|c s IH]; simpl.
  - destruct (k []) eqn:E; [|discriminate]. intros [= <-]. exists [], []. auto.
  - destruct (k (c :: s)) eqn:E; [intros [= <-]; exists [], (c :: s); auto|].
    destruct (p c) eqn:Ec; [|discriminate].
    intros (pre & rest & -> & Hp & Hk)%IH.
    exists (c :: pre), rest. simpl. rewrite Ec, Hp. auto.
Qed.

(** A pattern without groups consumes a string it stands for and
    hands the rest, with the captures as they were, to its
    continuation. *)
Lemma m_sound icase r s caps (k : str -> list str -> option R) res :
  groupless r = true ->
  m icase r s caps k = Some res ->
  exists pre rest, s = pre ++ rest /\ denotes icase r pre /\ k rest caps = Some res.
Proof.
  revert s caps k. induction r as [| x | p | p | p | r1 IH1 r2 IH2 | r1 IH1];
    intros s caps k Hg; cbn [m denotes].
  - intros Hk. exists [], s. auto.
  - destruct s as [|c t]; [discriminate|].
    destruct (same_char icase x c) eqn:E; [|discriminate].
    intros Hk. exists [c], t. eauto 6.
  - destruct s as [|c t]; [discriminate|].
    destruct (p c) eqn:E; [|discriminate].
    intros Hk. exists [c], t. eauto 6.
  - intros (pre & rest & -> & Hp & Hk)%star_greedy_sound. eauto.
  - intros (pre & rest & -> & Hp & Hk)%star_lazy_sound. eauto.
  - simpl in Hg. apply andb_true_iff in Hg as [Hg1 Hg2].
    intros (p1 & rest1 & -> & Hd1 & Hk)%(IH1 _ _ _ Hg1).
    apply (IH2 _ _ _ Hg2) in Hk as (p2 & rest2 & -> & Hd2 & Hk).
    exists (p1 ++ p2), rest2. rewrite <- app_assoc. eauto 8.
  - discriminate Hg.
Qed.

(** A group around such a pattern adds what it consumed to the
    captures. *)
Lemma m_Grp_sound icase r s caps (k : str -> list str -> option R) res :
  groupless r = true ->
  m icase (Grp r) s caps k = Some res ->
  exists pre rest,
    s = pre ++ rest /\ denotes icase r pre /\ k rest (caps ++ [pre]) = Some res.
Proof.
  intros Hg. cbn [m]. intros (pre & rest & -> & Hd & Hk)%(m_sound _ _ _ _ _ _ Hg).
  rewrite length_app, Nat.add_sub, take_app_length in Hk. eauto.
Qed.
End MatcherSound.

Lemma scan_from_hits rx (P : str -> list str -> Prop) :
  (forall s n caps, exec rx s = Some (n, caps) -> P (take n s) caps) ->
  forall fuel s whole groups,
    In (Hit whole groups) (scan_from fuel rx s) -> P whole groups.
Proof.
  intros HP. induction fuel as [|fuel IH]; intros s whole groups; [intros []|].
  cbn [scan_from].
  assert (Hstep : In (Hit whole groups)
                     match s with [] => [] | c :: t => Gap c :: scan_from fuel rx t end ->
                  P whole groups).
  { destruct s as [|c t]; [intros []|]. intros [[=] | Hin]. eauto. }
  destruct (exec rx s) as [[[|n] caps]|] eqn:E; [| |exact Hstep].
  - intros [[= <- <-] | Hin]; [exact (HP _ _ _ E) | auto].
  - intros [[= <- <-] | Hin]; [exact (HP _ _ _ E) | eauto].
Qed.

Lemma Plus_denotes icase p s :
  denotes icase (Plus p) s -> s <> [] /\ forallb p s = true.
Proof.
  intros (s1 & s2 & -> & (c & -> & Hc) & Hs2). simpl in *.
  split; [discriminate|]. rewrite Hc, Hs2. reflexivity.
Qed.

Lemma same_char_gt icase g : same_char icase ">" g = true -> g = ">"%char.
Proof.
  destruct icase, g as [[] [] [] [] [] [] [] []]; vm_compute;
    intros E; try discriminate E; reflexivity.
Qed.

(** X12: what [inlineImages] takes for an image reference.  Every
    match of its pattern has three captures that make up the match:
    what stands before the value, the value, what stands after.  The
    value is not empty and has no quote in it; a quote stands right
    before it and right after it. *)
Theorem IMG_SRC_captures (html whole : str) (groups : list str) :
  In (Hit whole groups) (scan IMG_SRC html) ->
  exists before src after q q' tail,
    groups = [before; src; after]
    /\ whole = before ++ src ++ after
    /\ src <> [] /\ forallb not_quote src = true
    /\ last before = Some q /\ is_quote q = true
    /\ after = q' :: tail /\ is_quote q' = true
    /\ last after = Some ">"%char.
Proof.
  unfold scan. intros Hin. pattern whole, groups.
  eapply scan_from_hits; [|exact Hin]. clear. intros s n caps.
  unfold exec, IMG_SRC. cbn [pattern ignoreCase]. rewrite !m_Cat.
  intros (g0 & r0 & -> & Hd0 & Hk)%m_Grp_sound; [|reflexivity].
  rewrite m_Cat in Hk.
  apply m_Grp_sound in Hk as (g1 & r1 & -> & Hd1 & Hk); [|reflexivity].
  apply m_Grp_sound in Hk as (g2 & r2 & -> & Hd2 & Hk); [|reflexivity].
  injection Hk as <- <-.
  rewrite !length_app.
  replace (length g0 + (length g1 + (length g2 + length r2)) - length r2)
    with (length (g0 ++ g1 ++ g2)) by (rewrite !length_app; lia).
  replace (g0 ++ g1 ++ g2 ++ r2) with ((g0 ++ g1 ++ g2) ++ r2)
    by (rewrite <- !app_assoc; reflexivity).
  rewrite take_app_length.
  apply Plus_denotes in Hd1 as [Hne Hq].
  destruct Hd0 as (a & b & -> & _ & (b1 & b2 & -> & _ & (b3 & b4 & -> & _ &
                   (b5 & b6 & -> & _ & (q & -> & Hq0))))).
  destruct Hd2 as (c1 & c2 & -> & (q' & -> & Hq') & (c3 & c4 & -> & _ & Hgt)).
  cbn [Lit denotes] in Hgt. destruct Hgt as (x & y & -> & (g & -> & Hg) & ->).
  apply same_char_gt in Hg.
  exists (a ++ b1 ++ b3 ++ b5 ++ [q]), g1, ([q'] ++ c3 ++ [g] ++ []), q, q', (c3 ++ [g] ++ []).
  repeat split; try assumption; try reflexivity.
  - rewrite !app_assoc. apply last_snoc.
  - rewrite app_nil_r. cbn [app].
    change (q' :: c3 ++ [g]) with ((q' :: c3) ++ [g]). rewrite last_snoc.
    subst g. reflexivity.
Qed.

Lemma IMG_SRC_captures_witness :
  exists before src after q q' tail,
    [js "<img alt=x src='"; js "dot.png"; js "' width=1>"] = [before; src; after]
    /\ js "<img alt=x src='dot.png' width=1>" = before ++ src ++ after
    /\ src <> [] /\ forallb not_quote src = true
    /\ last before = Some q /\ is_quote q = true
    /\ after = q' :: tail /\ is_quote q' = true
    /\ last after = Some ">"%char.
Proof.
  apply (IMG_SRC_captures (js "<p><img alt=x src='dot.png' width=1></p>")).
  vm_compute. do 3 right. left. reflexivity.
Defined.

(** ** Inlining *)

Section Inlining.
Context `{Host}.

Lemma keeps_disk_ret {A} (a : A) : keeps_disk (mret a).
Proof. intros w. reflexivity. Qed.

Lemma keeps_disk_bind {A B} (c : M A) (k : A -> M B) :
  keeps_disk c -> (forall a, keeps_disk (k a)) -> keeps_disk (c ≫= k).
Proof.
  intros Hc Hk w. unfold mbind, M_bind. specialize (Hc w).
  destruct (c w) as [a w1| |]; [|exact Hc..].
  rewrite (Hk a w1). exact Hc.
Qed.

Lemma keeps_disk_print l : keeps_disk (print l).
Proof. intros w. reflexivity. Qed.

Lemma keeps_disk_reading {A} api arg (f : fs -> option A) :
  keeps_disk (reading api arg f).
Proof. intros w. unfold reading. destruct (f (disk w)); reflexivity. Qed.

Lemma keeps_disk_calling {A} api arg (r : option A) : keeps_disk (calling api arg r).
Proof. intros w. unfold calling. destruct r; reflexivity. Qed.

Lemma keeps_disk_toDataUri filePath : keeps_disk (toDataUri filePath).
Proof.
  unfold toDataUri. destruct (negb _).
  - apply keeps_disk_bind; [apply keeps_disk_print | intros; apply keeps_disk_ret].
  - apply keeps_disk_bind; [apply keeps_disk_reading | intros; apply keeps_disk_ret].
Qed.

Lemma keeps_disk_resolveImagePath src contentDir :
  keeps_disk (resolveImagePath src contentDir).
Proof.
  unfold resolveImagePath. destruct (_ || _); [apply keeps_disk_ret|].
  apply keeps_disk_bind; [apply keeps_disk_reading|].
  intros []; apply keeps_disk_ret.
Qed.

Lemma keeps_disk_inline_one contentDir whole groups count :
  keeps_disk (inline_one contentDir whole groups count).
Proof.
  unfold inline_one. apply keeps_disk_bind; [apply keeps_disk_resolveImagePath|].
  intros filePath. destruct (negb (present filePath)); [apply keeps_disk_ret|].
  apply keeps_disk_bind; [apply keeps_disk_toDataUri|].
  intros dataUri. destruct (negb (present dataUri)); apply keeps_disk_ret.
Qed.

Lemma keeps_disk_substitute {S} (f : str -> list str -> S -> M (str * S)) pieces st :
  (forall whole groups st', keeps_disk (f whole groups st')) ->
  keeps_disk (substitute f pieces st).
Proof.
  intros Hf. revert st. induction pieces as [|[c|whole groups] rest IH]; intros st;
    cbn [substitute].
  - apply keeps_disk_ret.
  - apply keeps_disk_bind; [apply IH|]. intros [out st']. apply keeps_disk_ret.
  - apply keeps_disk_bind; [apply Hf|]. intros [r st1].
    apply keeps_disk_bind; [apply IH|]. intros [out st2]. apply keeps_disk_ret.
Qed.

Lemma keeps_disk_inlineImages html contentDir : keeps_disk (inlineImages html contentDir).
Proof.
  unfold inlineImages. apply keeps_disk_bind.
  - apply keeps_disk_substitute. intros. apply keeps_disk_inline_one.
  - intros [result count]. apply keeps_disk_bind; [|intros; apply keeps_disk_ret].
    destruct count; [apply keeps_disk_ret | apply keeps_disk_print].
Qed.

Lemma keeps_disk_cover frontmatter contentDir : keeps_disk (cover frontmatter contentDir).
Proof.
  unfold cover. destruct (field frontmatter "cover_image" []); [apply keeps_disk_ret|].
  apply keeps_disk_bind; [apply keeps_disk_resolveImagePath|].
  intros resolved. destruct (present resolved); [|apply keeps_disk_ret].
  apply keeps_disk_bind; [apply keeps_disk_toDataUri | intros; apply keeps_disk_ret].
Qed.

Lemma keeps_disk_Returned {A} (c : M A) w a w' :
  keeps_disk c -> c w = Returned a w' -> disk w' = disk w.
Proof. intros Hc E. specialize (Hc w). rewrite E in Hc. exact Hc. Qed.

Lemma inline_one_Returned contentDir whole groups count w r count' w' :
  inline_one contentDir whole groups count w = Returned (r, count') w' ->
  inlined_piece (Hit whole groups) r /\ count <= count'.
Proof.
  unfold inline_one. intros (filePath & w1 & Hr & Hk)%bind_Returned.
  destruct (negb (present filePath)).
  { injection Hk as <- <- _. split; [left; reflexivity | lia]. }
  apply bind_Returned in Hk as (dataUri & w2 & Hd & Hk).
  destruct dataUri as [[|c uri]|]; cbn [present negb or_else] in Hk.
  - injection Hk as <- <- _. split; [left; reflexivity | lia].
  - injection Hk as <- <- _.
    apply toDataUri_Some in Hd as (mime & data & Hm & _ & Hu & _).
    split; [|lia]. right. exists (c :: uri).
    split; [reflexivity|]. rewrite Hu.
    split; [reflexivity | exact (data_uri_safe _ _ data Hm)].
  - injection Hk as <- <- _. split; [left; reflexivity | lia].
Qed.

Lemma substitute_Returned contentDir pieces count w out count' w' :
  substitute (inline_one contentDir) pieces count w = Returned (out, count') w' ->
  exists outs, Forall2 inlined_piece pieces outs /\ out = concat outs.
Proof.
  revert count w out count' w'.
  induction pieces as [|[c|whole groups] rest IH]; intros count w out count' w';
    cbn [substitute].
  - intros [= <- _ _]. exists []. split; [constructor | reflexivity].
  - intros ([o st] & w1 & Hs & Hk)%bind_Returned. injection Hk as <- _ _.
    apply IH in Hs as (outs & Hall & ->). exists ([c] :: outs).
    split; [constructor; [reflexivity | exact Hall] | reflexivity].
  - intros ([r st1] & w1 & Hf & Hk)%bind_Returned.
    apply bind_Returned in Hk as ([o st2] & w2 & Hs & Hk). injection Hk as <- _ _.
    apply inline_one_Returned in Hf as [Hp _].
    apply IH in Hs as (outs & Hall & ->). exists (r :: outs).
    split; [constructor; assumption | reflexivity].
Qed.
End Inlining.

(** X13: what [inlineImages] can change.  The page comes back piece by
    piece: every character outside the matched image tags as it is,
    and every matched tag either as it is or with a data URI, free of
    quotes, in the place of its [src] value.  The disk is not
    written. *)
Theorem inlineImages_structure `{Host} (html contentDir : str) (w : World)
        (out : str) (w' : World) :
  inlineImages html contentDir w = Returned out w' ->
  exists outs,
    Forall2 inlined_piece (scan IMG_SRC html) outs
    /\ out = concat outs
    /\ disk w' = disk w.
Proof.
  intros E. pose proof (keeps_disk_Returned _ _ _ _ (keeps_disk_inlineImages _ _) E) as Hd.
  unfold inlineImages in E.
  apply bind_Returned in E as ([result count] & w1 & Hs & Hk).
  apply bind_Returned in Hk as (u & w2 & _ & Hk). injection Hk as <- _.
  apply substitute_Returned in Hs as (outs & Hall & ->). eauto.
Qed.

Lemma inlineImages_structure_witness :
  exists outs,
    Forall2 inlined_piece (scan IMG_SRC (js "<img src='dot.png'>!")) outs
    /\ js "<img src='data:image/png;base64,UE5H'>!" = concat outs
    /\ @disk Demo.host (printed (log_inlined 1) Demo.empty_project)
       = @disk Demo.host Demo.empty_project.
Proof.
  apply (@inlineImages_structure Demo.host (js "<img src='dot.png'>!")
           (js "/blog/content") Demo.empty_project).
  vm_compute. reflexivity.
Defined.

(** X14: the functions that look at images only read.  Whether they
    return or throw, [resolveImagePath], [toDataUri], [inlineImages]
    and the cover image step of [compile] leave the disk as it was. *)
Theorem image_steps_keep_disk `{Host} :
  (forall src contentDir, keeps_disk (resolveImagePath src contentDir))
  /\ (forall filePath, keeps_disk (toDataUri filePath))
  /\ (forall html contentDir, keeps_disk (inlineImages html contentDir))
  /\ (forall frontmatter contentDir, keeps_disk (cover frontmatter contentDir)).
Proof.
  split; [exact keeps_disk_resolveImagePath|].
  split; [exact keeps_disk_toDataUri|].
  split; [exact keeps_disk_inlineImages | exact keeps_disk_cover].
Qed.

(** X15: a reference to a file that exists and has a whitelisted
    extension is inlined.  The image tag gets the data URI of the file
    between what stood before and after its [src] value, and the
    counter of [inlineImages] goes up by one; a cover image of that
    value becomes the data URI.  Nothing is printed by either. *)
Theorem local_image_inlined `{Host} (contentDir src : str) (e mime : string)
        (data : list byte) (w : World) :
  left_alone (disk w) contentDir src = false ->
  In (e, mime) WHITELIST ->
  toLowerCase (extname (path_resolve contentDir src)) = "."%char :: js e ->
  readFileSync (disk w) (path_resolve contentDir src) = Some data ->
  let uri := js "data:" ++ js mime ++ js ";base64," ++ base64 data in
  (forall whole groups count,
      group 1 groups = src ->
      inline_one contentDir whole groups count w =
      Returned (group 0 groups ++ uri ++ group 2 groups, S count) w)
  /\ (forall frontmatter,
        field frontmatter "cover_image" [] = src -> src <> [] ->
        cover frontmatter contentDir w = Returned uri w).
Proof.
  intros Hl Hin Hext Hread uri.
  assert (Hres : resolveImagePath src contentDir w =
                 Returned (Some (path_resolve contentDir src)) w).
  { unfold left_alone in Hl. apply orb_false_iff in Hl as [Hs He].
    apply negb_false_iff in He. unfold resolveImagePath. rewrite Hs.
    unfold mbind, M_bind, reading. rewrite He. reflexivity. }
  assert (Hd' : toDataUri (path_resolve contentDir src) w = Returned (Some uri) w).
  { unfold toDataUri. rewrite Hext, (get_MIME_TYPES_whitelist _ _ Hin).
    assert (truthy (Str (js mime)) = true) as ->.
    { simpl in Hin. repeat (destruct Hin as [[= <- <-] | Hin]; [reflexivity|]).
      destruct Hin. }
    cbn [negb]. unfold mbind, M_bind, fs_readFileSync, reading.
    rewrite Hread. reflexivity. }
  assert (Hne : exists c p, path_resolve contentDir src = c :: p).
  { destruct (path_resolve contentDir src) as [|c p]; [discriminate Hext | eauto]. }
  destruct Hne as (c & p & Hp). split.
  - intros whole groups count Hg. unfold inline_one, mbind, M_bind.
    rewrite Hg, Hres, Hp. cbn [present negb or_else]. rewrite <- Hp, Hd'. reflexivity.
  - intros frontmatter Hf Hsrc. unfold cover, mbind, M_bind. rewrite Hf.
    destruct src as [|s0 src']; [congruence|].
    rewrite Hres, Hp. cbn [present or_else]. rewrite <- Hp, Hd'. reflexivity.
Qed.

Lemma local_image_inlined_witness :
  @inline_one Demo.host (js "/blog/content") (js "<img src='dot.png'>")
    [js "<img src='"; js "dot.png"; js "'>"] 0 Demo.empty_project
  = Returned (js "<img src='" ++ (js "data:" ++ js "image/png" ++ js ";base64,"
                                     ++ base64 (Demo.bytes "PNG")) ++ js "'>", 1)
             Demo.empty_project.
Proof.
  apply (@local_image_inlined Demo.host (js "/blog/content") (js "dot.png")
           "png" "image/png" (Demo.bytes "PNG") Demo.empty_project);
    try (vm_compute; reflexivity).
  left. reflexivity.
Defined.

(** ** Compiling one post *)

Section Compiling.
Context `{Host}.

Lemma bind_Thrown {A B} (c : M A) (k : A -> M B) w e w' :
  (c ≫= k) w = Thrown e w' ->
  c w = Thrown e w' \/ exists a w1, c w = Returned a w1 /\ k a w1 = Thrown e w'.
Proof.
  unfold mbind, M_bind. destruct (c w) as [a w1|e1 w1|n w1];
    [intros E; right; eauto | intros [= <- <-]; left; reflexivity | discriminate].
Qed.

Lemma bind_Exited {A B} (c : M A) (k : A -> M B) w n w' :
  (c ≫= k) w = Exited n w' ->
  c w = Exited n w' \/ exists a w1, c w = Returned a w1 /\ k a w1 = Exited n w'.
Proof.
  unfold mbind, M_bind. destruct (c w) as [a w1|e1 w1|n1 w1];
    [intros E; right; eauto | discriminate | intros [= <- <-]; left; reflexivity].
Qed.

(** A step that keeps the disk, in front of the rest. *)
Lemma bind_Thrown_keeps {A B} (c : M A) (k : A -> M B) w e w' :
  keeps_disk c ->
  (c ≫= k) w = Thrown e w' ->
  disk w' = disk w
  \/ exists a w1, disk w1 = disk w /\ k a w1 = Thrown e w'.
Proof.
  intros Hc [E | (a & w1 & E & Hk)]%bind_Thrown; specialize (Hc w); rewrite E in Hc.
  - left. exact Hc.
  - right. eauto.
Qed.

Lemma keeps_disk_readFileSync_utf8 p : keeps_disk (fs_readFileSync_utf8 p).
Proof.
  unfold fs_readFileSync_utf8, fs_readFileSync.
  apply keeps_disk_bind; [apply keeps_disk_reading | intros; apply keeps_disk_ret].
Qed.

Lemma writing_Thrown api arg (f : fs -> option fs) w e w' :
  writing api arg f w = Thrown e w' -> e = Failure api arg /\ w' = w.
Proof. unfold writing. destruct (f (disk w)); [discriminate|]. intros [= <- <-]. auto. Qed.

Lemma reading_Thrown {A} api arg (f : fs -> option A) w e w' :
  reading api arg f w = Thrown e w' -> e = Failure api arg /\ w' = w.
Proof. unfold reading. destruct (f (disk w)); [discriminate|]. intros [= <- <-]. auto. Qed.
End Compiling.



(** X17: a [compile] that fails before it writes leaves no trace on
    the disk.  Whatever is thrown by a call other than the write of the
    output and the look at its size, the source, style and template
    reads, the front matter and markdown libraries, an unreadable
    image, the making of the output directory, finds the disk as it was
    when [compile] began. *)
Theorem compile_failure_keeps_disk `{Host} (inputFile : str) (w : World)
        (api : string) (arg : str) (w' : World) :
  compile inputFile w = Thrown (Failure api arg) w' ->
  api <> "fs.writeFileSync"%string ->
  api <> "fs.statSync"%string ->
  disk w' = disk w.
Proof.
  intros E Hw Hs. unfold compile in E.
  apply bind_Thrown_keeps in E as [E | (raw & w0 & D0 & E)];
    [exact E | | apply keeps_disk_readFileSync_utf8].
  apply bind_Thrown_keeps in E as [E | ([frontmatter markdown] & w1 & D1 & E)];
    [congruence | | apply keeps_disk_calling].
  unfold compile_parsed in E.
  apply bind_Thrown_keeps in E as [E | (htmlContent & w2 & D2 & E)];
    [congruence | | apply keeps_disk_calling].
  apply bind_Thrown_keeps in E as [E | (styles & w3 & D3 & E)];
    [congruence | | apply keeps_disk_readFileSync_utf8].
  apply bind_Thrown_keeps in E as [E | (template & w4 & D4 & E)];
    [congruence | | apply keeps_disk_readFileSync_utf8].
  apply bind_Thrown_keeps in E as [E | (coverImage & w5 & D5 & E)];
    [congruence | | apply keeps_disk_cover].
  apply bind_Thrown_keeps in E as [E | (output & w6 & D6 & E)];
    [congruence | | apply keeps_disk_inlineImages].
  apply bind_Thrown in E as [E | (u1 & w7 & _ & E)].
  { apply writing_Thrown in E as [_ ->]. congruence. }
  apply bind_Thrown in E as [E | (u2 & w8 & _ & E)].
  { apply writing_Thrown in E as [[= -> _] _]. congruence. }
  apply bind_Thrown in E as [E | (size & w9 & _ & E)].
  { unfold fs_statSync_size in E. apply reading_Thrown in E as [[= -> _] _]. congruence. }
  apply bind_Thrown in E as [E | (u3 & w10 & _ & E)]; discriminate E.
Qed.

Lemma compile_failure_keeps_disk_witness :
  exists w',
    @compile Demo.host (js "/blog/content/missing.md") Demo.empty_project
    = Thrown (Failure "fs.readFileSync" (js "/blog/content/missing.md")) w'
    /\ @disk Demo.host w' = @disk Demo.host Demo.empty_project.
Proof.
  exists Demo.empty_project. split; [vm_compute; reflexivity|].
  apply (@compile_failure_keeps_disk Demo.host (js "/blog/content/missing.md")
           Demo.empty_project "fs.readFileSync" (js "/blog/content/missing.md")
           Demo.empty_project); [vm_compute; reflexivity | discriminate | discriminate].
Defined.

(** ** The batch *)

Section Batch.
Context `{Host}.

Lemma stays_ret {A} (a : A) : stays (mret a).
Proof. intros w n w'. discriminate. Qed.

Lemma stays_bind {A B} (c : M A) (k : A -> M B) :
  stays c -> (forall a, stays (k a)) -> stays (c ≫= k).
Proof.
  intros Hc Hk w n w' [E | (a & w1 & _ & E)]%bind_Exited.
  - exact (Hc _ _ _ E).
  - exact (Hk _ _ _ _ E).
Qed.

Lemma stays_print l : stays (print l).
Proof. intros w n w'. discriminate. Qed.

Lemma stays_reading {A} api arg (f : fs -> option A) : stays (reading api arg f).
Proof. intros w n w'. unfold reading. destruct (f (disk w)); discriminate. Qed.

Lemma stays_writing api arg (f : fs -> option fs) : stays (writing api arg f).
Proof. intros w n w'. unfold writing. destruct (f (disk w)); discriminate. Qed.

Lemma stays_calling {A} api arg (r : option A) : stays (calling api arg r).
Proof. intros w n w'. unfold calling. destruct r; discriminate. Qed.

Ltac stays :=
  repeat first
    [ apply stays_ret | apply stays_print | apply stays_reading
    | apply stays_writing | apply stays_calling
    | apply stays_bind; [|intros ?] ].

Lemma stays_toDataUri filePath : stays (toDataUri filePath).
Proof. unfold toDataUri, fs_readFileSync. destruct (negb _); stays. Qed.

Lemma stays_resolveImagePath src contentDir : stays (resolveImagePath src contentDir).
Proof.
  unfold resolveImagePath. destruct (_ || _); stays.
  match goal with b : bool |- _ => destruct b end; stays.
Qed.

Lemma stays_inline_one contentDir whole groups count :
  stays (inline_one contentDir whole groups count).
Proof.
  unfold inline_one. apply stays_bind; [apply stays_resolveImagePath|].
  intros filePath. destruct (negb (present filePath)); [stays|].
  apply stays_bind; [apply stays_toDataUri|].
  intros dataUri. destruct (negb (present dataUri)); stays.
Qed.

Lemma stays_inlineImages html contentDir : stays (inlineImages html contentDir).
Proof.
  unfold inlineImages. apply stays_bind.
  - generalize 0. induction (scan IMG_SRC html) as [|[c|whole groups] rest IH];
      intros count; cbn [substitute].
    + stays.
    + apply stays_bind; [apply IH|]. intros [out st]. stays.
    + apply stays_bind; [apply stays_inline_one|]. intros [r st1].
      apply stays_bind; [apply IH|]. intros [out st2]. stays.
  - intros [result count]. apply stays_bind; [|intros; stays].
    destruct count; stays.
Qed.

Lemma stays_cover frontmatter contentDir : stays (cover frontmatter contentDir).
Proof.
  unfold cover. destruct (field frontmatter "cover_image" []); [stays|].
  apply stays_bind; [apply stays_resolveImagePath|].
  intros resolved. destruct (present resolved); [|stays].
  apply stays_bind; [apply stays_toDataUri | intros; stays].
Qed.

Lemma stays_compile inputFile : stays (compile inputFile).
Proof.
  unfold compile, fs_readFileSync_utf8, fs_readFileSync.
  apply stays_bind; [stays|]. intros raw.
  apply stays_bind; [stays|]. intros [frontmatter markdown].
  unfold compile_parsed, fs_readFileSync_utf8, fs_readFileSync, fs_statSync_size.
  apply stays_bind; [stays|]. intros htmlContent.
  apply stays_bind; [stays|]. intros styles.
  apply stays_bind; [stays|]. intros template.
  apply stays_bind; [apply stays_cover|]. intros coverImage.
  apply stays_bind; [apply stays_inlineImages|]. intros output. stays.
Qed.

Lemma stays_generatePdf htmlPath : stays (generatePdf htmlPath).
Proof. unfold generatePdf, fs_statSync_size. stays. Qed.

Lemma stays_for_each {A B} (f : A -> M B) xs :
  (forall x, stays (f x)) -> stays (for_each f xs).
Proof.
  intros Hf. induction xs as [|x xs IH]; cbn [for_each]; [stays|].
  apply stays_bind; [apply Hf|]. intros y.
  apply stays_bind; [apply IH|]. intros ys. stays.
Qed.

Lemma stays_collect args : stays (collect args).
Proof.
  assert (stays markdown_files) by (unfold markdown_files; stays).
  unfold collect. destruct (includes _ args); [assumption|].
  destruct (filter _ args); [assumption | stays].
Qed.

Lemma bind_eq {A B} (c : M A) (k : A -> M B) w a w1 :
  c w = Returned a w1 -> (c ≫= k) w = k a w1.
Proof. intros E. unfold mbind, M_bind. rewrite E. reflexivity. Qed.

Lemma bind_thrown {A B} (c : M A) (k : A -> M B) w e w1 :
  c w = Thrown e w1 -> (c ≫= k) w = Thrown e w1.
Proof. intros E. unfold mbind, M_bind. rewrite E. reflexivity. Qed.

(** The one exit of [main] is the one of the empty batch. *)
Lemma main_Exited args w status w' : main args w = Exited status w' -> status = 0%Z.
Proof.
  unfold main. intros [E | (files & w1 & _ & E)]%bind_Exited.
  { destruct (stays_collect _ _ _ _ E). }
  apply bind_Exited in E as [E | (u & w2 & _ & E)].
  { destruct files; [|destruct (stays_ret _ _ _ _ E)].
    apply bind_Exited in E as [E | (u & w2 & _ & E)];
      [destruct (stays_print _ _ _ _ E) | injection E as <- _; reflexivity]. }
  exfalso. revert E. apply stays_bind; [stays|]. intros _.
  apply stays_bind; [apply stays_for_each, stays_compile|]. intros htmlPaths.
  apply stays_bind; [|intros; stays].
  destruct (includes _ args); [|stays].
  apply stays_bind; [stays|]. intros _.
  apply stays_bind; [apply stays_for_each, stays_generatePdf | intros; stays].
Qed.

Lemma for_each_length {A B} (f : A -> M B) xs w ys w' :
  for_each f xs w = Returned ys w' -> length ys = length xs.
Proof.
  revert w ys w'. induction xs as [|x xs IH]; intros w ys w'; cbn [for_each].
  - intros [= <- _]. reflexivity.
  - intros (y & w1 & _ & E)%bind_Returned.
    apply bind_Returned in E as (ys' & w2 & E & [= <- _]).
    simpl. f_equal. exact (IH _ _ _ E).
Qed.

Lemma for_each_map {A B} (f : A -> M B) (g : A -> B) xs w ys w' :
  (forall x w y w', f x w = Returned y w' -> y = g x) ->
  for_each f xs w = Returned ys w' -> ys = map g xs.
Proof.
  intros Hf. revert w ys w'. induction xs as [|x xs IH]; intros w ys w'; cbn [for_each].
  - intros [= <- _]. reflexivity.
  - intros (y & w1 & Hy & E)%bind_Returned.
    apply bind_Returned in E as (ys' & w2 & E & [= <- _]).
    simpl. f_equal; [exact (Hf _ _ _ _ Hy) | exact (IH _ _ _ E)].
Qed.

(** The loop stops at the first element that throws. *)
Lemma for_each_Thrown_at {A B} (f : A -> M B) done x rest w ys w1 e w2 :
  for_each f done w = Returned ys w1 ->
  f x w1 = Thrown e w2 ->
  for_each f (done ++ x :: rest) w = Thrown e w2.
Proof.
  revert w ys. induction done as [|d done IH]; intros w ys; cbn [for_each app].
  - intros [= _ <-] Hx. unfold mbind, M_bind. rewrite Hx. reflexivity.
  - intros (y & w0 & Hy & E)%bind_Returned Hx.
    apply bind_Returned in E as (ys' & w0' & E & [= _ <-]).
    unfold mbind, M_bind in *. rewrite Hy. rewrite (IH _ _ E Hx). reflexivity.
Qed.

Lemma generatePdf_Returned htmlPath w p w' :
  generatePdf htmlPath w = Returned p w' ->
  p = pdf_path htmlPath
  /\ page_pdf (disk w) htmlPath (pdf_path htmlPath) = Some (disk w')
  /\ exists size,
      statSync_size (disk w') (pdf_path htmlPath) = Some size
      /\ console w' = console w ++ [log_pdf (path_basename (pdf_path htmlPath) []) size].
Proof.
  unfold generatePdf. intros (u & w1 & Hw & E)%bind_Returned.
  apply bind_Returned in E as (size & w2 & Hs & E).
  apply bind_Returned in E as (u' & w3 & Hp & E).
  apply writing_Returned in Hw as [Hw Hc].
  unfold fs_statSync_size in Hs. apply reading_Returned in Hs as [Hs ->].
  injection Hp as _ <-. injection E as <- <-.
  cbn [printed disk console]. rewrite Hc. eauto.
Qed.
End Batch.

Lemma endsWith_app suffix stem : endsWith suffix (stem ++ suffix) = true.
Proof. unfold endsWith. rewrite rev_app_distr. apply startsWith_app. Qed.

(** X18: [generatePdf] prints the page beside it.  For [stem.html] the
    path printed to and returned is [stem.pdf]; when the call returns,
    the file is on the disk and the line printed reports its size.  A
    path that does not end in [.html] is its own PDF path. *)
Theorem generatePdf_beside `{Host} (stem : str) (w : World) (p : str) (w' : World) :
  generatePdf (stem ++ js ".html") w = Returned p w' ->
  p = stem ++ js ".pdf"
  /\ page_pdf (disk w) (stem ++ js ".html") (stem ++ js ".pdf") = Some (disk w')
  /\ (exists size,
        statSync_size (disk w') p = Some size
        /\ console w' = console w ++ [log_pdf (path_basename p []) size])
  /\ (forall other, endsWith (js ".html") other = false -> pdf_path other = other).
Proof.
  intros E. apply generatePdf_Returned in E as (-> & Hp & Hs).
  assert (Epdf : pdf_path (stem ++ js ".html") = stem ++ js ".pdf").
  { unfold pdf_path. rewrite endsWith_app, length_app.
    change (length (js ".html")) with 5. rewrite Nat.add_sub, take_app_length.
    reflexivity. }
  rewrite Epdf in *. repeat split; try assumption.
  intros other Ho. unfold pdf_path. rewrite Ho. reflexivity.
Qed.

Lemma generatePdf_beside_witness :
  js "/blog/dist/a.pdf" = js "/blog/dist/a" ++ js ".pdf".
Proof.
  apply (@generatePdf_beside Demo.host (js "/blog/dist/a") Demo.empty_project
           (js "/blog/dist/a.pdf")
           (final (@generatePdf Demo.host (js "/blog/dist/a.html") Demo.empty_project))).
  vm_compute. reflexivity.
Defined.

(** X19: the exit status of the script is 0 or 1, and it is 1 exactly
    when something was thrown: then the last line on the console is
    the error. *)
Theorem exit_status `{Host} (args : list str) (w : World) :
  let result := node_build args w in
  (result.1 = 0%Z /\ forall e w', main args w <> Thrown e w')
  \/ (result.1 = 1%Z
      /\ exists e w', main args w = Thrown e w'
                      /\ result.2 = printed (error_uncaught e) w'
                      /\ last (console result.2) = Some (error_uncaught e)).
Proof.
  unfold node_build. destruct (main args w) as [u w'|e w'|status w'] eqn:E; cbn.
  - left. split; [reflexivity | discriminate].
  - right. split; [reflexivity|]. exists e, w'. repeat split. apply last_snoc.
  - left. split; [exact (main_Exited _ _ _ _ E) | discriminate].
Qed.

(** X20: no partial batch.  When the compile of one file throws, the
    files before it having compiled, the script ends there with status
    1 and the error as its last line: the files after it are not
    compiled, and no PDF is made. *)
Theorem first_failure_aborts `{Host} (args : list str) (w : World)
        (done : list str) (f : str) (rest : list str)
        (paths : list str) (w1 : World) (e : exn) (w2 : World) :
  collect args w = Returned (done ++ f :: rest) w ->
  for_each compile done (printed (log_building (length (done ++ f :: rest))) w)
  = Returned paths w1 ->
  compile f w1 = Thrown e w2 ->
  node_build args w = (1%Z, printed (error_uncaught e) w2).
Proof.
  intros Hc Hd Hf.
  pose proof (for_each_Thrown_at compile done f rest _ _ _ _ _ Hd Hf) as Ht.
  remember (done ++ f :: rest) as files eqn:Ex.
  destruct files as [|x xs]; [destruct done; discriminate|].
  assert (E : main args w = Thrown e w2).
  { unfold main. rewrite (bind_eq _ _ _ _ _ Hc). cbn iota.
    rewrite (bind_eq (mret tt) _ w tt w eq_refl).
    rewrite (bind_eq (print _) _ w tt _ eq_refl).
    apply bind_thrown. exact Ht. }
  unfold node_build. rewrite E. reflexivity.
Qed.

Lemma first_failure_aborts_witness :
  @node_build Demo.host [js "missing.md"; js "--pdf"] Demo.empty_project
  = (1%Z, printed (error_uncaught (Failure "fs.readFileSync" (js "/blog/content/missing.md")))
                  (printed (log_building 1) Demo.empty_project)).
Proof.
  apply (@first_failure_aborts Demo.host [js "missing.md"; js "--pdf"] Demo.empty_project
           [] (js "/blog/content/missing.md") [] []
           (printed (log_building 1) Demo.empty_project)); vm_compute; reflexivity.
Defined.

(** X21: a batch that compiles.  When every file compiles, there is
    one output path per file; without [--pdf] the script ends with
    status 0 and [Done] as its last line, and with [--pdf] it does so
    once a PDF was made beside each output, in the order of the files
    and after all of them were compiled. *)
Theorem batch_completes `{Host} (args : list str) (w : World)
        (files paths : list str) (w1 : World) :
  collect args w = Returned files w ->
  files <> [] ->
  for_each compile files (printed (log_building (length files)) w) = Returned paths w1 ->
  length paths = length files
  /\ (includes (js "--pdf") args = false ->
      node_build args w = (0%Z, printed log_done w1))
  /\ (includes (js "--pdf") args = true ->
      forall pdfs w2,
        for_each generatePdf paths (printed log_generating_pdfs w1) = Returned pdfs w2 ->
        pdfs = map pdf_path paths
        /\ node_build args w = (0%Z, printed log_done w2)).
Proof.
  intros Hc Hne Hf. split; [exact (for_each_length _ _ _ _ _ Hf)|].
  assert (Hmain :
            main args w =
            ((if includes (js "--pdf") args
              then print log_generating_pdfs;; for_each generatePdf paths;; mret tt
              else mret tt);; print log_done) w1).
  { unfold main. rewrite (bind_eq _ _ _ _ _ Hc).
    destruct files as [|x xs]; [congruence|]. cbn iota.
    rewrite (bind_eq (mret tt) _ w tt w eq_refl).
    rewrite (bind_eq (print _) _ w tt _ eq_refl).
    rewrite (bind_eq _ _ _ _ _ Hf). reflexivity. }
  split.
  - intros Hp. unfold node_build. rewrite Hmain, Hp. reflexivity.
  - intros Hp pdfs w2 Hg. split.
    + apply (for_each_map generatePdf pdf_path _ _ _ _) in Hg; [exact Hg|].
      intros x w0 y w0' E. apply generatePdf_Returned in E. tauto.
    + unfold node_build. rewrite Hmain, Hp.
      unfold mbind, M_bind. cbn [print]. rewrite Hg. reflexivity.
Qed.

Lemma batch_completes_witness :
  let project :=
    @Build_World Demo.host
      (Demo.write (js "/blog/content/a.md") (Demo.bytes "Hello")
                  (@disk Demo.host Demo.empty_project)) [] in
  let compiled :=
    final (@for_each Demo.host _ _ (@compile Demo.host) [js "/blog/content/a.md"]
             (printed (log_building 1) project)) in
  @node_build Demo.host [] project = (0%Z, printed log_done compiled).
Proof.
  intros project compiled.
  destruct (@batch_completes Demo.host [] project [js "/blog/content/a.md"]
              [js "/blog/dist/a.html"] compiled) as (_ & Hdone & _).
  - vm_compute. reflexivity.
  - discriminate.
  - vm_compute. reflexivity.
  - exact (Hdone eq_refl).
Defined.

(** ** Conditional blocks only delete *)

Lemma replace_from_sublist rx f fuel s :
  (forall s n caps, exec rx s = Some (n, caps) -> sublist (f (take n s) caps) (take n s)) ->
  length s < fuel ->
  sublist (concat (map (fun p => match p with
                                 | Gap c => [c]
                                 | Hit whole groups => f whole groups
                                 end) (scan_from fuel rx s))) s.
Proof.
  intros Hf. revert s. induction fuel as [|fuel IH]; intros s Hlen; [lia|].
  cbn [scan_from].
  set (g := fun p => match p with Gap c => [c] | Hit whole groups => f whole groups end).
  assert (Hstep : sublist (concat (map g
                    match s with [] => [] | c :: t => Gap c :: scan_from fuel rx t end)) s).
  { destruct s as [|c t]; [constructor|]. simpl in *.
    apply sublist_skip, IH. lia. }
  destruct (exec rx s) as [[[|n] caps]|] eqn:E; [| |exact Hstep].
  - cbn [map concat]. pose proof (Hf _ _ _ E) as H0. cbn [take] in H0.
    change (firstn 0 s) with (@nil ascii) in H0.
    apply sublist_nil_r in H0. cbn [g]. rewrite H0. exact Hstep.
  - cbn [map concat]. pose proof (exec_le _ _ _ _ E) as Hn.
    rewrite <- (take_drop (S n) s) at 3.
    apply sublist_app; [exact (Hf _ _ _ E)|].
    apply IH. rewrite length_drop. lia.
Qed.

(** X22: [processConditionals] only deletes.  Its result is the
    template with some stretches left out and the characters that
    remain in their order, so it is never longer than the template,
    whatever the context holds. *)
Theorem processConditionals_sublist (html : str) (data : object) :
  sublist (processConditionals html data) html
  /\ length (processConditionals html data) <= length html.
Proof.
  assert (Hs : sublist (processConditionals html data) html).
  { unfold processConditionals, replace, scan. apply replace_from_sublist; [|lia].
    intros s n caps. rewrite exec_IF_BLOCK.
    destruct (marker_at IF_OPEN s) as [[name rest]|] eqn:Hm; [|discriminate].
    destruct (index_of IF_CLOSE rest) as [i|] eqn:Hi; [|discriminate].
    intros [= <- <-]. apply marker_at_inv in Hm as [_ ->].
    apply index_of_bound in Hi. cbn [group nth].
    destruct (truthy (get data name)); [|apply sublist_nil_l].
    replace (IF_OPEN ++ name ++ js "}}" ++ rest) with (if_open name ++ rest)
      by (unfold if_open; rewrite <- !app_assoc; reflexivity).
    match goal with
    | |- sublist _ (take ?n _) =>
        replace n with (length (if_open name) + (i + length IF_CLOSE))
          by (unfold if_open; rewrite !length_app; simpl; lia)
    end.
    rewrite take_app_add' by reflexivity.
    apply sublist_inserts_l.
    replace (take i rest) with (take i (take (i + length IF_CLOSE) rest))
      by (rewrite take_take; f_equal; lia).
    apply sublist_take. }
  split; [exact Hs | apply sublist_length, Hs].
Qed.
